(** * Memory Match: a shallow embedding of [memorymatchgame.c]

    The C program is a single interactive loop over a board of cards.  The
    embedding keeps the source's functions ([init_board], [shuffle_symbols],
    [display_board], [pick_card], [main]) and threads explicitly what the C
    code keeps in locals and in the C library: the board array, the counters,
    the state of [rand()], the values returned by [time(NULL)], the text
    printed so far and the lines typed by the player. *)

From Stdlib Require Import ZArith Ascii String Permutation Lia.
From stdpp Require Import base tactics option list list_numbers.

Local Open Scope nat_scope.

(** ** Cards and boards *)

(** [typedef struct { char symbol; bool revealed; bool matched; } Card;] *)
Record Card : Type := mkCard {
  symbol : ascii;
  revealed : bool;
  matched : bool
}.

#[global] Instance Card_inhabited : Inhabited Card :=
  populate (mkCard "000"%char false false).

#[global] Instance ascii_inhabited : Inhabited ascii := populate "000"%char.

#[global] Instance ascii_eq_dec : EqDecision ascii := ascii_dec.

(** [Card board[BOARD_ROWS][BOARD_COLS]]: a list of rows. *)
Abbreviation Board := (list (list Card)).

(** [board[r][c]] *)
Definition cell (board : Board) (r c : nat) : Card := (board !!! r) !!! c.

(** [board[r][c].revealed = v] and [board[r][c].matched = v] *)
Definition set_revealed (v : bool) (k : Card) : Card :=
  mkCard (symbol k) v (matched k).

Definition set_matched (v : bool) (k : Card) : Card :=
  mkCard (symbol k) (revealed k) v.

Definition update (board : Board) (r c : nat) (f : Card → Card) : Board :=
  alter (alter f c) r board.

(** A board has the shape of the C array when it has [rows] rows of [cols]
    cards each. *)
Definition shaped (rows cols : nat) (board : Board) : Prop :=
  length board = rows ∧ Forall (λ row, length row = cols) board.

(** All cards of the board, row-major, as the array lies in memory. *)
Definition cards (board : Board) : list Card := concat board.

(** A card that is face up but not (yet) confirmed as part of a pair. *)
Definition is_open (k : Card) : bool := revealed k && negb (matched k).

Definition open_weight (k : Card) : nat := if is_open k then 1 else 0.

Definition count_open (board : Board) : nat :=
  sum_list_with (sum_list_with open_weight) board.

(** The symbols of the board, cell by cell. *)
Definition symbols_of (board : Board) : list (list ascii) :=
  (λ row : list Card, symbol <$> row) <$> board.

(** Number of cells of the board that carry symbol [s]. *)
Definition occurrences (s : ascii) (board : Board) : nat :=
  count_occ ascii_dec (symbol <$> cards board) s.

(** ** What the program prints *)

Inductive message : Type :=
| MsgMustBeEven
| MsgWelcome
| MsgInstructions (total_pairs : Z)
| MsgBoard (shown : list (list ascii))
| MsgPickFirst
| MsgPickSecond
| MsgPrompt
| MsgInvalidInput
| MsgOutOfRange
| MsgAlreadyMatched
| MsgAlreadyRevealed
| MsgSameCardTwice
| MsgMatch
| MsgNoMatch
| MsgPressEnter
| MsgCongratulations
| MsgMoves (moves : Z)
| MsgTime (minutes seconds : Z)
| MsgTimeUndefined
| MsgNotEnoughSymbols.

#[global] Instance message_eq_dec : EqDecision message.
Proof. solve_decision. Defined.

(** The fixed text of each [printf] (the board grid and the numbers of the
    parametrised messages are carried by the constructors). *)
Definition message_text (m : message) : string :=
  match m with
  | MsgMustBeEven => "BOARD_ROWS * BOARD_COLS must be even (pairs)."
  | MsgWelcome => "Welcome to Memory Match!"
  | MsgInstructions _ => "Match all %d pairs. Enter coordinates as row and column (1-based)."
  | MsgBoard _ => ""
  | MsgPickFirst => "Pick first card:"
  | MsgPickSecond => "Pick second card:"
  | MsgPrompt => "Enter row (1-%d) and column (1-%d) separated by space: "
  | MsgInvalidInput => "Invalid input. Please enter two numbers."
  | MsgOutOfRange => "Coordinates out of range. Try again."
  | MsgAlreadyMatched => "That card is already matched. Pick another."
  | MsgAlreadyRevealed => "That card is already revealed this turn. Pick another."
  | MsgSameCardTwice => "You picked the same card twice. Try again."
  | MsgMatch => "Nice! It's a match."
  | MsgNoMatch => "Not a match. Cards will be hidden."
  | MsgPressEnter => "Press Enter to continue..."
  | MsgCongratulations => "CONGRATULATIONS! You matched all pairs."
  | MsgMoves _ => "Moves: %d"
  | MsgTime _ _ => "Time: %d:%02d (minutes:seconds)"
  | MsgTimeUndefined => "Time: %d:%02d (minutes:seconds)"
  | MsgNotEnoughSymbols => "Not enough unique symbols to create pairs. Reduce board size."
  end.

(** [display_board]: a matched or revealed card shows its symbol, any other
    card shows ['*']. *)
Definition display_board (board : Board) : list (list ascii) :=
  map (map (λ k, if matched k || revealed k then symbol k else "*"%char)) board.

(** ** The symbol pool *)

(** [for (char c = lo; c <= hi && pool_idx < (int)sizeof(pool)-1; ++c)
      pool[pool_idx++] = c;]
    with [char pool[128]].  Every iteration stores one character and the guard
    stops at 127 stored characters, so 128 rounds always suffice.  The list
    holds the [pool_idx] characters stored; the terminating NUL the source
    appends is never read. *)
Definition POOL_LIMIT : nat := 127.

Fixpoint fill_pool (rounds : nat) (c hi : nat) (pool : list ascii) : list ascii :=
  match rounds with
  | 0 => pool
  | S rounds' =>
      if (c <=? hi) && (length pool <? POOL_LIMIT)
      then fill_pool rounds' (S c) hi (pool ++ [ascii_of_nat c])
      else pool
  end.

Definition pool : list ascii :=
  let p := fill_pool 128 (nat_of_ascii "A") (nat_of_ascii "Z") [] in
  let p := fill_pool 128 (nat_of_ascii "a") (nat_of_ascii "z") p in
  fill_pool 128 (nat_of_ascii "0") (nat_of_ascii "9") p.

(** [for (i = 0; i < pair_count; ++i) { symbols[idx++] = pool[i];
                                         symbols[idx++] = pool[i]; }] *)
Definition pair_symbols (pool : list ascii) (pair_count : nat) : list ascii :=
  flat_map (λ i, [pool !!! i; pool !!! i]) (seq 0 pair_count).

(** ** Shuffling *)

(** [tmp = symbols[i]; symbols[i] = symbols[j]; symbols[j] = tmp;]
    The program only swaps inside the array; outside it (undefined in C) the
    list operations read a NUL and write nothing. *)
Definition swap (symbols : list ascii) (i j : nat) : list ascii :=
  let tmp := symbols !!! i in
  let symbols := <[i := symbols !!! j]> symbols in
  <[j := tmp]> symbols.

(** The placement loops of [init_board]: [idx] runs through [symbols] while
    [r] and [c] run through the rows and columns. *)
Fixpoint fill_row (symbols : list ascii) (cols : nat) (idx : nat)
  : list Card * nat :=
  match cols with
  | 0 => ([], idx)
  | S cols' =>
      let k := mkCard (symbols !!! idx) false false in
      let '(rest, idx') := fill_row symbols cols' (S idx) in
      (k :: rest, idx')
  end.

Fixpoint fill_rows (symbols : list ascii) (rows cols : nat) (idx : nat) : Board :=
  match rows with
  | 0 => []
  | S rows' =>
      let '(row, idx') := fill_row symbols cols idx in
      row :: fill_rows symbols rows' cols idx'
  end.

(** ** Player input *)

(** What [scanf("%d %d", &r, &c)] delivered: two integers, or anything else
    ([scanned != 2]). *)
Inductive scanned : Type :=
| ScanFail
| Scan2 (r c : Z).

(** The program blocks in two ways: in [pick_card] for a line with
    coordinates, and after a mismatch for the player pressing Enter. *)
Inductive input : Type :=
| Pick (s : scanned)
| Ack.

(** ** The program *)

Definition INT_MAX : Z := 2147483647.
Definition INT_MIN : Z := (-2147483648)%Z.

(** Where [main] is blocked (or has stopped).  [Undefined] is reached when
    [moves++] would overflow [int], which C leaves undefined. *)
Inductive phase : Type :=
| AwaitingFirstPick
| AwaitingSecondPick (r1 c1 : nat)
| AwaitingAck (r1 c1 r2 c2 : nat)
| Won
| Undefined.

#[global] Instance phase_eq_dec : EqDecision phase.
Proof. solve_decision. Defined.

(** The locals of [main] together with the text printed so far. *)
Record game : Type := mkGame {
  board : Board;
  pairs_found : Z;
  moves : Z;
  start : Z;
  pc : phase;
  output : list message
}.

Definition with_board (b : Board) (g : game) : game :=
  mkGame b (pairs_found g) (moves g) (start g) (pc g) (output g).

Definition with_pc (p : phase) (g : game) : game :=
  mkGame (board g) (pairs_found g) (moves g) (start g) p (output g).

Definition say (ms : list message) (g : game) : game :=
  mkGame (board g) (pairs_found g) (moves g) (start g) (pc g) (output g ++ ms).

Definition incr_moves (g : game) : game :=
  mkGame (board g) (pairs_found g) (moves g + 1)%Z (start g) (pc g) (output g).

Definition incr_pairs_found (g : game) : game :=
  mkGame (board g) (pairs_found g + 1)%Z (moves g) (start g) (pc g) (output g).

(** The three values [time(NULL)] returns during a run: for [srand], for
    [start] and for [end]. *)
Record clock : Type := mkClock {
  time_seed : Z;
  time_start : Z;
  time_end : Z
}.

(** [difftime(end, start)]: the seconds from [start] to [end].  C returns
    them as a [double]; for an integral [time_t] that is the integer
    [end - start] (a difference too large for a [double] is rounded, and
    stays far outside [int]). *)
Definition difftime (e s : Z) : Z := (e - s)%Z.

(** The conversion [(int) d] of line 104: the value itself when it fits
    [int].  C leaves every other conversion undefined. *)
Definition int_of_double (d : Z) : option Z :=
  if decide (INT_MIN ≤ d ≤ INT_MAX)%Z then Some d else None.

(** Line 108: the time as [seconds / 60] and [seconds % 60].  When the
    conversion of line 104 is undefined, so are the numbers of this line. *)
Definition time_line (seconds : option Z) : message :=
  match seconds with
  | Some seconds => MsgTime (Z.quot seconds 60) (Z.rem seconds 60)
  | None => MsgTimeUndefined
  end.

(** How a process can stop before the game loop is entered. *)
Record exit : Type := mkExit {
  status : Z;
  printed : list message
}.

Inductive init_result (rng : Type) : Type :=
| InitOk (board : Board) (g : rng)
| InitExit (e : exit).

Arguments InitOk {rng} board g.
Arguments InitExit {rng} e.

Section Program.

(** [#define BOARD_ROWS 4], [#define BOARD_COLS 4]: the source invites
    changing them, so they are parameters here. *)
Variables BOARD_ROWS BOARD_COLS : nat.

(** The C library's random source: its state, [srand] and [rand]. *)
Variable rng : Type.
Variable srand : Z → rng.
Variable rand : rng → Z * rng.

Variable clk : clock.

(** *** [shuffle_symbols] *)

(** [for (int i = count - 1; i > 0; --i) { int j = rand() % (i + 1); swap }] *)
Fixpoint shuffle_loop (i : nat) (symbols : list ascii) (g : rng)
  : list ascii * rng :=
  match i with
  | 0 => (symbols, g)
  | S i' =>
      let '(x, g') := rand g in
      let j := Z.to_nat (Z.rem x (Z.of_nat i + 1)) in
      shuffle_loop i' (swap symbols i j) g'
  end.

Definition shuffle_symbols (symbols : list ascii) (count : nat) (g : rng)
  : list ascii * rng :=
  shuffle_loop (count - 1) symbols g.

(** The swaps the loop performs, in order, as pairs [(i, j)]. *)
Fixpoint shuffle_swaps (i : nat) (g : rng) : list (nat * nat) :=
  match i with
  | 0 => []
  | S i' =>
      let '(x, g') := rand g in
      (i, Z.to_nat (Z.rem x (Z.of_nat i + 1))) :: shuffle_swaps i' g'
  end.

(** *** [init_board] *)

(** [exit(1)] becomes [InitExit].  [main] calls the function only when
    [BOARD_ROWS * BOARD_COLS] is even, so that [symbols] holds exactly that
    many characters when it is shuffled and placed. *)
Definition init_board (g : rng) : init_result rng :=
  let pool_idx := length pool in
  let pair_count := (BOARD_ROWS * BOARD_COLS) / 2 in
  if pool_idx <? pair_count then
    InitExit (mkExit 1 [MsgNotEnoughSymbols])
  else
    let symbols := pair_symbols pool pair_count in
    let '(symbols, g') := shuffle_symbols symbols (BOARD_ROWS * BOARD_COLS) g in
    InitOk (fill_rows symbols BOARD_ROWS BOARD_COLS 0) g'.

(** The symbols [init_board] hands to the placement loops. *)
Definition shuffled (g : rng) : list ascii :=
  (shuffle_symbols (pair_symbols pool (BOARD_ROWS * BOARD_COLS / 2))
                   (BOARD_ROWS * BOARD_COLS) g).1.

(** *** [pick_card] *)

(** The argument [inp] is what [scanf] delivered.  The result is the pair
    of the values stored through [row] and [col] when the C function returns
    [true], and [None] when it returns [false]; the second component is what
    the call printed, the prompt included. *)
Definition pick_card (board : Board) (inp : scanned)
  : option (nat * nat) * list message :=
  match inp with
  | ScanFail => (None, [MsgPrompt; MsgInvalidInput])
  | Scan2 r c =>
      if ((r <? 1) || (r >? Z.of_nat BOARD_ROWS)
          || (c <? 1) || (c >? Z.of_nat BOARD_COLS))%Z
      then (None, [MsgPrompt; MsgOutOfRange])
      else
        let r := Z.to_nat (r - 1) in
        let c := Z.to_nat (c - 1) in
        if matched (cell board r c) then (None, [MsgPrompt; MsgAlreadyMatched])
        else if revealed (cell board r c) then (None, [MsgPrompt; MsgAlreadyRevealed])
        else (Some (r, c), [MsgPrompt])
  end.

(** *** [main] *)

Definition total_pairs : Z := Z.quot (Z.of_nat BOARD_ROWS * Z.of_nat BOARD_COLS) 2.

(** The head of [while (pairs_found < total_pairs)]: either the board is
    shown and the first card is asked for, or the loop is left and the
    summary is printed. *)
Definition loop_head (g : game) : game :=
  if (pairs_found g <? total_pairs)%Z then
    say [MsgBoard (display_board (board g)); MsgPickFirst]
        (with_pc AwaitingFirstPick g)
  else
    let seconds := int_of_double (difftime (time_end clk) (start g)) in
    say [MsgCongratulations; MsgMoves (moves g); time_line seconds]
        (with_pc Won g).

(** Lines 64-66: the first pick. *)
Definition first_pick (g : game) (s : scanned) : game :=
  let '(res, msgs) := pick_card (board g) s in
  let g := say msgs g in
  match res with
  | None => loop_head g
  | Some (r1, c1) =>
      let g := with_board (update (board g) r1 c1 (set_revealed true)) g in
      say [MsgBoard (display_board (board g)); MsgPickSecond]
          (with_pc (AwaitingSecondPick r1 c1) g)
  end.

(** Lines 87-100 up to the pause: the comparison of the two cards. *)
Definition compare_cards (g : game) (r1 c1 r2 c2 : nat) : game :=
  if decide (symbol (cell (board g) r1 c1) = symbol (cell (board g) r2 c2)) then
    let g := say [MsgMatch] g in
    let g := with_board (update (board g) r1 c1 (set_matched true)) g in
    let g := with_board (update (board g) r2 c2 (set_matched true)) g in
    loop_head (incr_pairs_found g)
  else
    say [MsgNoMatch; MsgPressEnter] (with_pc (AwaitingAck r1 c1 r2 c2) g).

(** Lines 69-86: the second pick. *)
Definition second_pick (g : game) (r1 c1 : nat) (s : scanned) : game :=
  let '(res, msgs) := pick_card (board g) s in
  let g := say msgs g in
  match res with
  | None =>
      loop_head (with_board (update (board g) r1 c1 (set_revealed false)) g)
  | Some (r2, c2) =>
      if (r1 =? r2) && (c1 =? c2) then
        let g := say [MsgSameCardTwice] g in
        loop_head (with_board (update (board g) r1 c1 (set_revealed false)) g)
      else
        let g := with_board (update (board g) r2 c2 (set_revealed true)) g in
        let g := say [MsgBoard (display_board (board g))] g in
        if (moves g <? INT_MAX)%Z then compare_cards (incr_moves g) r1 c1 r2 c2
        else with_pc Undefined g
  end.

(** Lines 98-99, after the player pressed Enter. *)
Definition acknowledge (g : game) (r1 c1 r2 c2 : nat) : game :=
  let g := with_board (update (board g) r1 c1 (set_revealed false)) g in
  let g := with_board (update (board g) r2 c2 (set_revealed false)) g in
  loop_head g.

(** One step of [main]: the program is blocked at [pc g] and receives
    [i].  An input of the kind the program is not waiting for is not
    consumed, and a stopped program consumes nothing. *)
Definition step (g : game) (i : input) : game :=
  match pc g, i with
  | AwaitingFirstPick, Pick s => first_pick g s
  | AwaitingSecondPick r1 c1, Pick s => second_pick g r1 c1 s
  | AwaitingAck r1 c1 r2 c2, Ack => acknowledge g r1 c1 r2 c2
  | _, _ => g
  end.

Definition run (g : game) (inputs : list input) : game :=
  foldl step g inputs.

(** [main] up to its first blocking read: the parity check, seeding,
    [init_board], the welcome text and the first loop test. *)
Definition main_start : exit + game :=
  if negb (Nat.eqb ((BOARD_ROWS * BOARD_COLS) mod 2) 0) then
    inl (mkExit 1 [MsgMustBeEven])
  else
    match init_board (srand (time_seed clk mod 2 ^ 32)%Z) with
    | InitExit e => inl e
    | InitOk b _ =>
        inr (loop_head (mkGame b 0 0 (time_start clk) AwaitingFirstPick
                               [MsgWelcome; MsgInstructions total_pairs]))
    end.

(** The states [main] can be in. *)
Inductive reachable : game → Prop :=
| reachable_start g : main_start = inr g → reachable g
| reachable_step g i : reachable g → reachable (step g i).

End Program.

(** ** Vocabulary for stating what the program guarantees *)

Definition all_cards (P : Card → Prop) (board : Board) : Prop :=
  Forall (Forall P) board.

(** Once matched, a card stays face up. *)
Definition matched_shown (k : Card) : Prop :=
  matched k = true → revealed k = true.

(** The state in which the two picked cards are compared: both are face up
    and the board has been shown. *)
Definition second_revealed (g : game) (r2 c2 : nat) : game :=
  let g := say [MsgPrompt] g in
  let g := with_board (update (board g) r2 c2 (set_revealed true)) g in
  say [MsgBoard (display_board (board g))] g.

(** One swap of the loop, as a pair [(i, j)]. *)
Definition apply_swap (l : list ascii) (ij : nat * nat) : list ascii :=
  swap l ij.1 ij.2.

(** Every element written twice in a row. *)
Definition twice (l : list ascii) : list ascii := flat_map (λ x, [x; x]) l.

(** The card [init_board] stores for a symbol. *)
Definition face_down (s : ascii) : Card := mkCard s false false.

Definition hidden (k : Card) : Prop := revealed k = false ∧ matched k = false.

(** The distinct symbols that occur on a board. *)
Definition used_symbols (board : Board) : list ascii :=
  remove_dups (symbol <$> cards board).

(** The 1-based coordinates a player types for cell [(r, c)]. *)
Definition typed (r c : nat) : scanned :=
  Scan2 (Z.of_nat r + 1) (Z.of_nat c + 1).

Section Consistency.

Variables BOARD_ROWS BOARD_COLS : nat.

Definition in_range (r c : nat) : Prop := r < BOARD_ROWS ∧ c < BOARD_COLS.

(** What holds of the board at each place where [main] blocks. *)
Definition phase_inv (g : game) : Prop :=
  match pc g with
  | AwaitingFirstPick =>
      count_open (board g) = 0 ∧ (pairs_found g < total_pairs BOARD_ROWS BOARD_COLS)%Z
  | AwaitingSecondPick r1 c1 =>
      in_range r1 c1 ∧ is_open (cell (board g) r1 c1) = true
      ∧ count_open (board g) = 1 ∧ (pairs_found g < total_pairs BOARD_ROWS BOARD_COLS)%Z
  | AwaitingAck r1 c1 r2 c2 =>
      in_range r1 c1 ∧ in_range r2 c2 ∧ (r1, c1) ≠ (r2, c2)
      ∧ is_open (cell (board g) r1 c1) = true
      ∧ is_open (cell (board g) r2 c2) = true
      ∧ count_open (board g) = 2 ∧ (pairs_found g < total_pairs BOARD_ROWS BOARD_COLS)%Z
  | Won =>
      count_open (board g) = 0 ∧ pairs_found g = total_pairs BOARD_ROWS BOARD_COLS
  | Undefined =>
      count_open (board g) = 2 ∧ (pairs_found g < total_pairs BOARD_ROWS BOARD_COLS)%Z
  end.

Record game_inv (g : game) : Prop := mkGameInv {
  inv_shaped : shaped BOARD_ROWS BOARD_COLS (board g);
  inv_matched_shown : all_cards matched_shown (board g);
  inv_pairs_found : (0 ≤ pairs_found g)%Z;
  inv_phase : phase_inv g
}.

(** Whether input [i] in state [g] completes a two-card attempt: the
    program waits for the second card, [pick_card] accepts the input, and
    the card is not the first one. *)
Definition completes_attempt (g : game) (i : input) : bool :=
  match pc g, i with
  | AwaitingSecondPick r1 c1, Pick s =>
      match (pick_card BOARD_ROWS BOARD_COLS (board g) s).1 with
      | Some (r2, c2) => negb ((r1 =? r2) && (c1 =? c2))
      | None => false
      end
  | _, _ => false
  end.

End Consistency.

(** ** A concrete C library and the board of the source

    The sample [rand]/[srand] of the C standard (a linear congruential
    generator yielding values in 0..32767) and the 4x4 board of the
    [#define]s; they give the model something to run on. *)
Module Sample.

Definition srand (seed : Z) : Z := seed.

Definition rand (next : Z) : Z * Z :=
  let next := ((next * 1103515245 + 12345) mod 2 ^ 32)%Z in
  (((next / 65536) mod 32768)%Z, next).

Definition clk : clock := mkClock 1 1000 1083.

Definition BOARD_ROWS : nat := 4.
Definition BOARD_COLS : nat := 4.

Definition init : init_result Z :=
  init_board BOARD_ROWS BOARD_COLS Z rand (srand 1).

Definition start_board : Board :=
  match init with InitOk b _ => b | InitExit _ => [] end.

(** The game when [main] asks for the first card. *)
Definition start_game : game :=
  match main_start BOARD_ROWS BOARD_COLS Z srand rand clk with
  | inr g => g
  | inl _ => mkGame [] 0 0 0 Won []
  end.

Definition after (inputs : list input) : game :=
  run BOARD_ROWS BOARD_COLS clk start_game inputs.

(** A whole game: eight matching pairs in eight moves. *)
Definition winning_inputs : list input :=
  Pick <$> [typed 0 0; typed 0 1; typed 0 2; typed 0 3;
            typed 1 0; typed 2 0; typed 1 1; typed 2 1;
            typed 1 2; typed 2 2; typed 1 3; typed 3 2;
            typed 2 3; typed 3 3; typed 3 0; typed 3 1].

End Sample.

(** ** The input buffer *)

(** Standard input as the characters still to be read; [getchar] returns
    [EOF] (here [None]) once the list is empty. *)
Definition NEWLINE : ascii := "010"%char.

Definition getchar (stdin : list ascii) : option ascii * list ascii :=
  match stdin with
  | [] => (None, [])
  | ch :: rest => (Some ch, rest)
  end.

(** [while ((ch = getchar()) != '\n' && ch != EOF) ;] *)
Fixpoint clear_input_buffer (stdin : list ascii) : list ascii :=
  match stdin with
  | [] => []
  | ch :: rest => if decide (ch = NEWLINE) then rest else clear_input_buffer rest
  end.

(** Lines 96-97, the pause after a mismatch:
    [clear_input_buffer(); getchar();] *)
Definition pause (stdin : list ascii) : list ascii :=
  (getchar (clear_input_buffer stdin)).2.

(** Two cards look alike to the player. *)
Definition same_face (k k' : Card) : Prop :=
  revealed k = revealed k' ∧ matched k = matched k'
  ∧ (matched k || revealed k = true → symbol k = symbol k').

(** ** Counting cards *)

Definition count_cards (p : Card → bool) (board : Board) : nat :=
  sum_list_with (sum_list_with (λ k, if p k then 1 else 0)) board.

Definition has_symbol (s : ascii) (k : Card) : bool :=
  bool_decide (symbol k = s).

Definition matched_with (s : ascii) (k : Card) : bool :=
  has_symbol s k && matched k.

(** A card of symbol [s] that is still to be found. *)
Definition unmatched_with (s : ascii) (k : Card) : bool :=
  has_symbol s k && negb (matched k).

(** ** A scripted random source

    [rand()] hands out the numbers of a list, one after the other (and 0
    once the list is used up). *)
Definition scripted_rand (g : list Z) : Z * list Z :=
  match g with
  | [] => (0%Z, [])
  | x :: g' => (x, g')
  end.

(** ** What the counters and the printed text say about the board *)

(** The three lines printed after the loop. *)
Definition summary (clk : clock) (g : game) : list message :=
  let seconds := int_of_double (difftime (time_end clk) (start g)) in
  [MsgCongratulations; MsgMoves (moves g); time_line seconds].

(** The counters agree with the board. *)
Record tally_inv (g : game) : Prop := mkTallyInv {
  tally_matched : Z.of_nat (count_cards matched (board g)) = (2 * pairs_found g)%Z;
  tally_moves : (pairs_found g ≤ moves g)%Z
}.

(** For every symbol, none or all of its cards are matched, and no symbol
    lies on more than two cards. *)
Definition paired_inv (g : game) : Prop :=
  ∀ s, count_cards (has_symbol s) (board g) ≤ 2
       ∧ (count_cards (matched_with s) (board g) = 0
          ∨ count_cards (matched_with s) (board g)
            = count_cards (has_symbol s) (board g)).

(** The summary is the last thing printed, and only by a finished game. *)
Definition output_inv (clk : clock) (g : game) : Prop :=
  start g = time_start clk
  ∧ if decide (pc g = Won)
    then ∃ pre, output g = pre ++ summary clk g ∧ MsgCongratulations ∉ pre
    else MsgCongratulations ∉ output g.

(** ** The kinds of step

    What one input can make of a consistent game [g]: nothing (the input is
    not the one waited for, or the program has stopped), a first pick that is
    rejected or accepted, a second pick that is rejected, accepted and
    compared, or accepted with the move counter at [INT_MAX], and the
    acknowledgement of a mismatch. *)
Section Turns.

Variables BOARD_ROWS BOARD_COLS : nat.
Variable clk : clock.

Inductive turn (g : game) : game → Prop :=
| turn_idle : turn g g
| turn_first_rejected msgs :
    pc g = AwaitingFirstPick → MsgCongratulations ∉ msgs →
    turn g (loop_head BOARD_ROWS BOARD_COLS clk (say msgs g))
| turn_first_accepted r1 c1 :
    pc g = AwaitingFirstPick → in_range BOARD_ROWS BOARD_COLS r1 c1 →
    matched (cell (board g) r1 c1) = false →
    revealed (cell (board g) r1 c1) = false →
    turn g (say [MsgBoard (display_board
                             (update (board g) r1 c1 (set_revealed true)));
                 MsgPickSecond]
                (with_pc (AwaitingSecondPick r1 c1)
                         (with_board (update (board g) r1 c1 (set_revealed true))
                                     (say [MsgPrompt] g))))
| turn_second_rejected r1 c1 msgs :
    pc g = AwaitingSecondPick r1 c1 → MsgCongratulations ∉ msgs →
    turn g (loop_head BOARD_ROWS BOARD_COLS clk
              (with_board (update (board g) r1 c1 (set_revealed false))
                          (say msgs g)))
| turn_compared r1 c1 r2 c2 :
    pc g = AwaitingSecondPick r1 c1 → in_range BOARD_ROWS BOARD_COLS r2 c2 →
    (r1, c1) ≠ (r2, c2) →
    matched (cell (board g) r2 c2) = false →
    revealed (cell (board g) r2 c2) = false →
    (moves g < INT_MAX)%Z →
    turn g (compare_cards BOARD_ROWS BOARD_COLS clk
              (incr_moves (second_revealed g r2 c2)) r1 c1 r2 c2)
| turn_overflow r1 c1 r2 c2 :
    pc g = AwaitingSecondPick r1 c1 → in_range BOARD_ROWS BOARD_COLS r2 c2 →
    turn g (with_pc Undefined (second_revealed g r2 c2))
| turn_acknowledged r1 c1 r2 c2 :
    pc g = AwaitingAck r1 c1 r2 c2 →
    turn g (acknowledge BOARD_ROWS BOARD_COLS clk g r1 c1 r2 c2).

End Turns.

(** * Arrays as lists: what an assignment to one slot changes *)

Section ArrayFacts.

Context {A : Type}.

(** Replacing one element changes a weighted sum by the difference of the
    two weights. *)
Lemma sum_list_with_alter (w : A → nat) (f : A → A) (l : list A) i x :
  l !! i = Some x →
  sum_list_with w (alter f i l) + w x = sum_list_with w l + w (f x).
Proof.
  revert i. induction l as [|y l IH]; intros [|i] Hi; simplify_eq/=.
  - lia.
  - specialize (IH _ Hi). lia.
Qed.

Lemma count_occ_insert (dec : ∀ a b : A, {a = b} + {a ≠ b})
      (l : list A) i x y s :
  l !! i = Some x →
  count_occ dec (<[i:=y]> l) s + (if dec x s then 1 else 0)
  = count_occ dec l s + (if dec y s then 1 else 0).
Proof.
  revert i. induction l as [|z l IH]; intros [|i] Hi; simplify_eq/=.
  - destruct (dec x s), (dec y s); lia.
  - specialize (IH _ Hi). destruct (dec z s); lia.
Qed.

End ArrayFacts.

Section BoardFacts.

Variables rows cols : nat.

Lemma shaped_update (b : Board) r c f :
  shaped rows cols b → shaped rows cols (update b r c f).
Proof.
  intros [Hlen Hrows]. split.
  - unfold update. by rewrite length_alter.
  - apply Forall_alter; [done|]. intros row _ Hrow. by rewrite length_alter.
Qed.

Lemma shaped_row (b : Board) r :
  shaped rows cols b → r < rows → b !! r = Some (b !!! r) ∧ length (b !!! r) = cols.
Proof.
  intros [Hlen Hrows] Hr.
  assert (b !! r = Some (b !!! r)) as Hrow
    by (apply list_lookup_lookup_total_lt; lia).
  split; [done|]. by apply (Forall_lookup_1 _ _ _ _ Hrows Hrow).
Qed.

Lemma shaped_cell (b : Board) r c :
  shaped rows cols b → r < rows → c < cols →
  b !! r = Some (b !!! r) ∧ (b !!! r) !! c = Some (cell b r c).
Proof.
  intros Hb Hr Hc. destruct (shaped_row b r Hb Hr) as [Hrow Hlen].
  split; [done|]. apply list_lookup_lookup_total_lt. lia.
Qed.

(** Reading a cell after an assignment to cell [(r, c)]. *)
Lemma cell_update (b : Board) r c f r' c' :
  shaped rows cols b → r < rows → c < cols →
  cell (update b r c f) r' c'
  = if decide (r = r' ∧ c = c') then f (cell b r c) else cell b r' c'.
Proof.
  intros Hb Hr Hc. destruct (shaped_row b r Hb Hr) as [Hrow Hlen].
  destruct Hb as [Hrows _].
  unfold cell, update. rewrite list_lookup_total_alter.
  destruct (decide (r = r')) as [<-|Hne].
  - rewrite decide_True by (split; [done|lia]).
    rewrite list_lookup_total_alter.
    destruct (decide (c = c')) as [<-|Hnc].
    + rewrite !decide_True; [done|done|split; [done|lia]].
    + repeat case_decide; try done; tauto.
  - repeat case_decide; try done; tauto.
Qed.

Lemma cell_update_eq (b : Board) r c f :
  shaped rows cols b → r < rows → c < cols →
  cell (update b r c f) r c = f (cell b r c).
Proof. intros. rewrite cell_update by done. by rewrite decide_True. Qed.

Lemma cell_update_ne (b : Board) r c f r' c' :
  shaped rows cols b → r < rows → c < cols → (r, c) ≠ (r', c') →
  cell (update b r c f) r' c' = cell b r' c'.
Proof.
  intros ??? Hne. rewrite cell_update by done.
  rewrite decide_False; [done|]. intros [-> ->]. by apply Hne.
Qed.

(** The number of open cards after an assignment to one cell. *)
Lemma count_open_update (b : Board) r c f :
  shaped rows cols b → r < rows → c < cols →
  count_open (update b r c f) + open_weight (cell b r c)
  = count_open b + open_weight (f (cell b r c)).
Proof.
  intros Hb Hr Hc. destruct (shaped_cell b r c Hb Hr Hc) as [Hrow Hcell].
  unfold count_open, update.
  pose proof (sum_list_with_alter (sum_list_with open_weight)
                (alter f c) b r _ Hrow) as Houter.
  pose proof (sum_list_with_alter open_weight f (b !!! r) c _ Hcell) as Hinner.
  lia.
Qed.

(** A property of all cards survives an assignment that establishes it for
    the assigned cell. *)
Lemma all_cards_update (P : Card → Prop) (b : Board) r c f :
  all_cards P b →
  (P (cell b r c) → P (f (cell b r c))) →
  all_cards P (update b r c f).
Proof.
  intros Hall Hf. apply Forall_alter; [done|].
  intros row Hrow Hprow. apply Forall_alter; [done|].
  intros k Hk Hpk.
  assert (cell b r c = k) as <-; [|by apply Hf].
  unfold cell. rewrite (list_lookup_total_correct _ _ _ Hrow).
  by apply list_lookup_total_correct.
Qed.

Lemma all_cards_cell (P : Card → Prop) (b : Board) r c :
  shaped rows cols b → r < rows → c < cols → all_cards P b → P (cell b r c).
Proof.
  intros Hb Hr Hc Hall. destruct (shaped_cell b r c Hb Hr Hc) as [Hrow Hcell].
  eapply Forall_lookup_1; [|exact Hcell].
  eapply Forall_lookup_1; [exact Hall|exact Hrow].
Qed.

(** Assignments to the two flags never touch a symbol. *)
Lemma symbols_update (b : Board) r c f :
  (∀ k, symbol (f k) = symbol k) →
  symbols_of (update b r c f) = symbols_of b.
Proof.
  intros Hf. unfold symbols_of, update.
  rewrite (list_fmap_alter (λ row : list Card, symbol <$> row) (alter f c) id).
  - by apply list_alter_id.
  - apply Forall_forall. intros row _.
    rewrite (list_fmap_alter symbol f id).
    + by apply list_alter_id.
    + apply Forall_forall. intros k _. by apply Hf.
Qed.

End BoardFacts.

(** * The game loop keeps the board consistent *)

(** [m] differs from every element of an explicit list. *)
Ltac not_in_list :=
  let H := fresh in
  intros H;
  repeat (apply elem_of_cons in H as [H|H]; [discriminate H|]);
  try (apply elem_of_app in H as [H|H]; [tauto|]);
  repeat (apply elem_of_cons in H as [H|H]; [discriminate H|]);
  first [by apply elem_of_nil in H | tauto].

Ltac game_simpl :=
  unfold say, with_board, with_pc, incr_moves, incr_pairs_found in *;
  simpl in *.

Section LoopFacts.

Variables BOARD_ROWS BOARD_COLS : nat.
Variable clk : clock.

Local Abbreviation pick_card := (pick_card BOARD_ROWS BOARD_COLS).
Local Abbreviation total_pairs := (total_pairs BOARD_ROWS BOARD_COLS).
Local Abbreviation loop_head := (loop_head BOARD_ROWS BOARD_COLS clk).
Local Abbreviation first_pick := (first_pick BOARD_ROWS BOARD_COLS clk).
Local Abbreviation second_pick := (second_pick BOARD_ROWS BOARD_COLS clk).
Local Abbreviation compare_cards := (compare_cards BOARD_ROWS BOARD_COLS clk).
Local Abbreviation acknowledge := (acknowledge BOARD_ROWS BOARD_COLS clk).
Local Abbreviation step := (step BOARD_ROWS BOARD_COLS clk).
Local Abbreviation run := (run BOARD_ROWS BOARD_COLS clk).
Local Abbreviation shaped := (shaped BOARD_ROWS BOARD_COLS).
Local Abbreviation in_range := (in_range BOARD_ROWS BOARD_COLS).
Local Abbreviation phase_inv := (phase_inv BOARD_ROWS BOARD_COLS).
Local Abbreviation game_inv := (game_inv BOARD_ROWS BOARD_COLS).

(** *** [pick_card] *)

Lemma pick_card_Some b s r c msgs :
  pick_card b s = (Some (r, c), msgs) →
  in_range r c ∧ matched (cell b r c) = false ∧ revealed (cell b r c) = false
  ∧ msgs = [MsgPrompt]
  ∧ ∃ zr zc, s = Scan2 zr zc ∧ r = Z.to_nat (zr - 1) ∧ c = Z.to_nat (zc - 1)
             ∧ (1 ≤ zr ≤ Z.of_nat BOARD_ROWS)%Z ∧ (1 ≤ zc ≤ Z.of_nat BOARD_COLS)%Z.
Proof.
  unfold pick_card, in_range. intros Hpick.
  destruct s as [|zr zc]; [done|].
  destruct (_ || _)%Z eqn:Hrange in Hpick; [done|].
  destruct (matched _) eqn:Hm in Hpick; [done|].
  destruct (revealed _) eqn:Hr in Hpick; [done|].
  simplify_eq.
  rewrite !orb_false_iff, !Z.gtb_ltb, !Z.ltb_ge in Hrange.
  repeat split; try done; try lia.
  exists zr, zc. repeat split; lia.
Qed.

Lemma pick_card_None b s msgs :
  pick_card b s = (None, msgs) →
  msgs = [MsgPrompt; MsgInvalidInput] ∨ msgs = [MsgPrompt; MsgOutOfRange]
  ∨ msgs = [MsgPrompt; MsgAlreadyMatched] ∨ msgs = [MsgPrompt; MsgAlreadyRevealed].
Proof.
  unfold pick_card. intros Hpick.
  repeat case_match; simplify_eq; tauto.
Qed.

(** *** The three assignments of the loop body *)

Lemma reveal_count b r c :
  shaped b → in_range r c →
  revealed (cell b r c) = false → matched (cell b r c) = false →
  count_open (update b r c (set_revealed true)) = S (count_open b)
  ∧ is_open (cell (update b r c (set_revealed true)) r c) = true.
Proof.
  intros Hb [Hr Hc] Hrev Hm.
  pose proof (count_open_update _ _ b r c (set_revealed true) Hb Hr Hc) as Hcount.
  rewrite (cell_update_eq _ _ b r c _ Hb Hr Hc).
  unfold open_weight, is_open in *. simpl in *. rewrite Hrev, Hm in *.
  simpl in *. split; [lia|done].
Qed.

Lemma hide_count b r c :
  shaped b → in_range r c → is_open (cell b r c) = true →
  count_open b = S (count_open (update b r c (set_revealed false))).
Proof.
  intros Hb [Hr Hc] Hopen.
  pose proof (count_open_update _ _ b r c (set_revealed false) Hb Hr Hc) as Hcount.
  unfold open_weight in Hcount. rewrite Hopen in Hcount.
  unfold is_open in Hcount. simpl in Hcount. lia.
Qed.

Lemma match_count b r c :
  shaped b → in_range r c → is_open (cell b r c) = true →
  count_open b = S (count_open (update b r c (set_matched true))).
Proof.
  intros Hb [Hr Hc] Hopen.
  pose proof (count_open_update _ _ b r c (set_matched true) Hb Hr Hc) as Hcount.
  unfold open_weight in Hcount. rewrite Hopen in Hcount.
  unfold is_open in Hcount. simpl in Hcount.
  rewrite andb_false_r in Hcount. lia.
Qed.

Lemma is_open_true k : is_open k = true ↔ revealed k = true ∧ matched k = false.
Proof. unfold is_open. rewrite andb_true_iff, negb_true_iff. done. Qed.

Lemma reveal_matched_shown b r c :
  all_cards matched_shown b →
  all_cards matched_shown (update b r c (set_revealed true)).
Proof. intros Hall. by apply all_cards_update. Qed.

Lemma hide_matched_shown b r c :
  all_cards matched_shown b → matched (cell b r c) = false →
  all_cards matched_shown (update b r c (set_revealed false)).
Proof.
  intros Hall Hm. apply all_cards_update; [done|].
  unfold matched_shown. simpl. congruence.
Qed.

Lemma match_matched_shown b r c :
  all_cards matched_shown b → revealed (cell b r c) = true →
  all_cards matched_shown (update b r c (set_matched true)).
Proof.
  intros Hall Hrev. apply all_cards_update; [done|].
  unfold matched_shown. simpl. auto.
Qed.

(** *** The loop test *)

Lemma loop_head_board g : board (loop_head g) = board g.
Proof. unfold loop_head. by case_match. Qed.

Lemma loop_head_moves g : moves (loop_head g) = moves g.
Proof. unfold loop_head. by case_match. Qed.

Lemma loop_head_pairs_found g : pairs_found (loop_head g) = pairs_found g.
Proof. unfold loop_head. by case_match. Qed.

Lemma loop_head_pc g :
  pc (loop_head g)
  = if (pairs_found g <? total_pairs)%Z then AwaitingFirstPick else Won.
Proof. unfold loop_head. by case_match. Qed.

Lemma loop_head_inv g :
  shaped (board g) → all_cards matched_shown (board g) →
  count_open (board g) = 0 → (0 ≤ pairs_found g ≤ total_pairs)%Z →
  game_inv (loop_head g).
Proof.
  intros Hb Hms Hopen Hpf. split.
  - by rewrite loop_head_board.
  - by rewrite loop_head_board.
  - rewrite loop_head_pairs_found. lia.
  - unfold phase_inv. rewrite loop_head_pc, loop_head_board, loop_head_pairs_found.
    destruct (Z.ltb_spec (pairs_found g) total_pairs); split; (done || lia).
Qed.

(** *** The loop body *)

(** A card accepted as second pick is never the first one: the first card
    is face up, and [pick_card] refuses face-up cards. *)
Lemma second_pick_distinct g r1 c1 s r2 c2 msgs :
  game_inv g → pc g = AwaitingSecondPick r1 c1 →
  pick_card (board g) s = (Some (r2, c2), msgs) →
  (r1, c1) ≠ (r2, c2) ∧ (r1 =? r2) && (c1 =? c2) = false.
Proof.
  intros [_ _ _ Hph] Hpc Hpick. unfold phase_inv in Hph. rewrite Hpc in Hph.
  destruct Hph as (_ & Hopen & _). apply is_open_true in Hopen as [Hrev _].
  apply pick_card_Some in Hpick as (_ & _ & Hrev2 & _).
  assert ((r1, c1) ≠ (r2, c2)) as Hne by (intros [= -> ->]; congruence).
  split; [done|]. apply andb_false_iff.
  destruct (Nat.eqb_spec r1 r2) as [->|]; [|by left].
  destruct (Nat.eqb_spec c1 c2) as [->|]; [|by right]. done.
Qed.

Lemma second_pick_valid g r1 c1 s r2 c2 msgs :
  game_inv g → pc g = AwaitingSecondPick r1 c1 →
  pick_card (board g) s = (Some (r2, c2), msgs) →
  second_pick g r1 c1 s
  = if (moves g <? INT_MAX)%Z
    then compare_cards (incr_moves (second_revealed g r2 c2)) r1 c1 r2 c2
    else with_pc Undefined (second_revealed g r2 c2).
Proof.
  intros Hinv Hpc Hpick.
  destruct (second_pick_distinct _ _ _ _ _ _ _ Hinv Hpc Hpick) as [_ Hneq].
  pose proof (pick_card_Some _ _ _ _ _ Hpick) as (_ & _ & _ & -> & _).
  unfold second_pick. rewrite Hpick. game_simpl. by rewrite Hneq.
Qed.

Lemma second_pick_rejected g r1 c1 s msgs :
  pick_card (board g) s = (None, msgs) →
  second_pick g r1 c1 s
  = loop_head (with_board (update (board g) r1 c1 (set_revealed false))
                          (say msgs g)).
Proof. intros Hpick. unfold second_pick. by rewrite Hpick. Qed.

(** The board when the two cards are compared. *)
Lemma second_revealed_open g r1 c1 s r2 c2 msgs :
  game_inv g → pc g = AwaitingSecondPick r1 c1 →
  pick_card (board g) s = (Some (r2, c2), msgs) →
  let b := board (second_revealed g r2 c2) in
  shaped b ∧ all_cards matched_shown b ∧ in_range r1 c1 ∧ in_range r2 c2
  ∧ (r1, c1) ≠ (r2, c2)
  ∧ is_open (cell b r1 c1) = true ∧ is_open (cell b r2 c2) = true
  ∧ count_open b = 2.
Proof.
  intros Hinv Hpc Hpick.
  destruct (second_pick_distinct _ _ _ _ _ _ _ Hinv Hpc Hpick) as [Hne _].
  destruct Hinv as [Hb Hms _ Hph]. unfold phase_inv in Hph. rewrite Hpc in Hph.
  destruct Hph as (Hin1 & Hopen1 & Hcount & _).
  apply pick_card_Some in Hpick as (Hin2 & Hm2 & Hrev2 & _).
  destruct (reveal_count _ _ _ Hb Hin2 Hrev2 Hm2) as [Hcount2 Hopen2].
  simpl. split_and!; try done.
  - by apply shaped_update.
  - by apply reveal_matched_shown.
  - destruct Hin2. rewrite (cell_update_ne _ _ _ _ _ _ r1 c1) by done. done.
  - lia.
Qed.

Lemma compare_cards_inv g r1 c1 r2 c2 :
  shaped (board g) → all_cards matched_shown (board g) →
  in_range r1 c1 → in_range r2 c2 → (r1, c1) ≠ (r2, c2) →
  is_open (cell (board g) r1 c1) = true →
  is_open (cell (board g) r2 c2) = true →
  count_open (board g) = 2 → (0 ≤ pairs_found g < total_pairs)%Z →
  game_inv (compare_cards g r1 c1 r2 c2).
Proof.
  intros Hb Hms Hin1 Hin2 Hne Hopen1 Hopen2 Hcount Hpf.
  unfold compare_cards. case_decide as Hsym.
  - pose proof (match_count _ _ _ Hb Hin1 Hopen1) as Hc1.
    set (b1 := update (board g) r1 c1 (set_matched true)) in *.
    assert (shaped b1) as Hb1 by by apply shaped_update.
    assert (is_open (cell b1 r2 c2) = true) as Hopen2'.
    { unfold b1. destruct Hin1. by rewrite (cell_update_ne BOARD_ROWS BOARD_COLS) by done. }
    pose proof (match_count _ _ _ Hb1 Hin2 Hopen2') as Hc2.
    apply is_open_true in Hopen1 as [Hrev1 _].
    apply is_open_true in Hopen2' as [Hrev2 _].
    apply loop_head_inv; game_simpl.
    + by apply shaped_update.
    + apply match_matched_shown; [|done]. by apply match_matched_shown.
    + fold b1. lia.
    + lia.
  - split; game_simpl; try done; try lia.
    unfold phase_inv. simpl. split_and!; (done || lia).
Qed.

Lemma acknowledge_inv g r1 c1 r2 c2 :
  game_inv g → pc g = AwaitingAck r1 c1 r2 c2 →
  game_inv (acknowledge g r1 c1 r2 c2).
Proof.
  intros [Hb Hms Hpf Hph] Hpc. unfold phase_inv in Hph. rewrite Hpc in Hph.
  destruct Hph as (Hin1 & Hin2 & Hne & Hopen1 & Hopen2 & Hcount & Hlt).
  pose proof (hide_count _ _ _ Hb Hin1 Hopen1) as Hc1.
  set (b1 := update (board g) r1 c1 (set_revealed false)) in *.
  assert (shaped b1) as Hb1 by by apply shaped_update.
  assert (is_open (cell b1 r2 c2) = true) as Hopen2'.
  { unfold b1. destruct Hin1. by rewrite (cell_update_ne BOARD_ROWS BOARD_COLS) by done. }
  pose proof (hide_count _ _ _ Hb1 Hin2 Hopen2') as Hc2.
  apply is_open_true in Hopen1 as [_ Hm1].
  apply is_open_true in Hopen2' as [_ Hm2].
  unfold acknowledge. apply loop_head_inv; game_simpl.
  - by apply shaped_update.
  - apply hide_matched_shown; [|done]. by apply hide_matched_shown.
  - fold b1. lia.
  - lia.
Qed.

Lemma first_pick_inv g s :
  game_inv g → pc g = AwaitingFirstPick → game_inv (first_pick g s).
Proof.
  intros [Hb Hms Hpf Hph] Hpc. unfold phase_inv in Hph. rewrite Hpc in Hph.
  destruct Hph as [Hcount Hlt]. unfold first_pick.
  destruct (pick_card (board g) s) as [[[r1 c1]|] msgs] eqn:Hpick.
  - apply pick_card_Some in Hpick as (Hin & Hm & Hrev & _).
    destruct (reveal_count _ _ _ Hb Hin Hrev Hm) as [Hcount1 Hopen1].
    split; game_simpl.
    + by apply shaped_update.
    + by apply reveal_matched_shown.
    + done.
    + unfold phase_inv. simpl. split_and!; (done || lia).
  - apply loop_head_inv; game_simpl; (done || lia).
Qed.

Lemma second_pick_inv g r1 c1 s :
  game_inv g → pc g = AwaitingSecondPick r1 c1 → game_inv (second_pick g r1 c1 s).
Proof.
  intros Hinv Hpc.
  destruct (pick_card (board g) s) as [[[r2 c2]|] msgs] eqn:Hpick.
  - rewrite (second_pick_valid _ _ _ _ _ _ _ Hinv Hpc Hpick).
    destruct (second_revealed_open _ _ _ _ _ _ _ Hinv Hpc Hpick)
      as (Hb & Hms & Hin1 & Hin2 & Hne & Hopen1 & Hopen2 & Hcount).
    destruct Hinv as [_ _ Hpf Hph]. unfold phase_inv in Hph. rewrite Hpc in Hph.
    destruct Hph as (_ & _ & _ & Hlt).
    case_match.
    + apply compare_cards_inv; try done; game_simpl; lia.
    + by split.
  - rewrite (second_pick_rejected _ _ _ _ _ Hpick).
    destruct Hinv as [Hb Hms Hpf Hph]. unfold phase_inv in Hph. rewrite Hpc in Hph.
    destruct Hph as (Hin1 & Hopen1 & Hcount & Hlt).
    pose proof (hide_count _ _ _ Hb Hin1 Hopen1) as Hc1.
    apply is_open_true in Hopen1 as [_ Hm1].
    apply loop_head_inv; game_simpl.
    + by apply shaped_update.
    + by apply hide_matched_shown.
    + lia.
    + lia.
Qed.

Lemma step_inv g i : game_inv g → game_inv (step g i).
Proof.
  intros Hinv. unfold step.
  destruct (pc g) eqn:Hpc; destruct i as [s|]; try done.
  - by apply first_pick_inv.
  - by apply second_pick_inv.
  - by apply acknowledge_inv.
Qed.

Lemma run_inv g inputs : game_inv g → game_inv (run g inputs).
Proof.
  revert g. induction inputs as [|i inputs IH]; intros g Hinv; [done|].
  simpl. by apply IH, step_inv.
Qed.

End LoopFacts.

(** * Shuffling *)

Lemma length_swap (l : list ascii) i j : length (swap l i j) = length l.
Proof. unfold swap. by rewrite !length_insert. Qed.

(** [swap] exchanges the two slots and leaves the others alone. *)
Lemma swap_lookup (l : list ascii) i j :
  i < length l → j < length l →
  swap l i j !!! i = l !!! j ∧ swap l i j !!! j = l !!! i
  ∧ ∀ k, k ≠ i → k ≠ j → swap l i j !!! k = l !!! k.
Proof.
  intros Hi Hj. unfold swap. split_and!.
  - rewrite list_lookup_total_insert, length_insert.
    case_decide as Hd; [by destruct Hd as [-> _]|].
    by rewrite list_lookup_total_insert_eq.
  - by rewrite list_lookup_total_insert_eq by by rewrite length_insert.
  - intros k Hki Hkj. by rewrite !list_lookup_total_insert_ne.
Qed.

Lemma swap_count_occ (l : list ascii) i j s :
  i < length l → j < length l →
  count_occ ascii_dec (swap l i j) s = count_occ ascii_dec l s.
Proof.
  intros Hi Hj. unfold swap.
  pose proof (list_lookup_lookup_total_lt l i Hi) as Hli.
  pose proof (list_lookup_lookup_total_lt l j Hj) as Hlj.
  pose proof (count_occ_insert ascii_dec l i _ (l !!! j) s Hli) as H1.
  assert ((<[i:=l !!! j]> l) !! j = Some (l !!! j)) as Hj'.
  { rewrite list_lookup_insert. case_decide as Hd; [|done]. done. }
  pose proof (count_occ_insert ascii_dec _ j _ (l !!! i) s Hj') as H2.
  lia.
Qed.

Lemma swap_Permutation (l : list ascii) i j :
  i < length l → j < length l → swap l i j ≡ₚ l.
Proof.
  intros Hi Hj. apply (Permutation_count_occ ascii_dec). intros s.
  by apply swap_count_occ.
Qed.

Section ShuffleFacts.

Variable rng : Type.
Variable rand : rng → Z * rng.

Local Abbreviation shuffle_loop := (shuffle_loop rng rand).
Local Abbreviation shuffle_swaps := (shuffle_swaps rng rand).
Local Abbreviation shuffle_symbols := (shuffle_symbols rng rand).

Lemma length_shuffle_loop i l g : length (shuffle_loop i l g).1 = length l.
Proof.
  revert l g. induction i as [|i IH]; intros l g; simpl; [done|].
  destruct (rand g) as [x g']. by rewrite IH, length_swap.
Qed.

(** The loop performs exactly the swaps listed by [shuffle_swaps]. *)
Lemma shuffle_loop_swaps i l g :
  (shuffle_loop i l g).1 = foldl apply_swap l (shuffle_swaps i g).
Proof.
  revert l g. induction i as [|i IH]; intros l g; simpl; [done|].
  destruct (rand g) as [x g']. simpl. apply IH.
Qed.

(** [i] runs from the last index down to 1. *)
Lemma shuffle_swaps_indices i g : (shuffle_swaps i g).*1 = reverse (seq 1 i).
Proof.
  revert g. induction i as [|i IH]; intros g; [done|].
  rewrite seq_S, reverse_snoc. simpl.
  destruct (rand g) as [x g']. simpl. by rewrite IH.
Qed.

(** The C library promises [0 <= rand() <= RAND_MAX]. *)
Hypothesis rand_nonneg : ∀ g, (0 ≤ (rand g).1)%Z.

Lemma shuffle_index_bound g i :
  Z.to_nat (Z.rem (rand g).1 (Z.of_nat i + 1)) ≤ i.
Proof.
  pose proof (Z.rem_bound_pos (rand g).1 (Z.of_nat i + 1) (rand_nonneg g)).
  lia.
Qed.

Lemma shuffle_swaps_bounded i g : Forall (λ ij, ij.2 ≤ ij.1) (shuffle_swaps i g).
Proof.
  revert g. induction i as [|i IH]; intros g; simpl; [constructor|].
  pose proof (shuffle_index_bound g (S i)) as Hj.
  destruct (rand g) as [x g']. constructor; [exact Hj|apply IH].
Qed.

Lemma shuffle_loop_Permutation i l g :
  i < length l → (shuffle_loop i l g).1 ≡ₚ l.
Proof.
  revert l g. induction i as [|i IH]; intros l g Hi; simpl; [done|].
  pose proof (shuffle_index_bound g (S i)) as Hj.
  destruct (rand g) as [x g']. simpl in Hj.
  rewrite IH by (rewrite length_swap; lia).
  apply swap_Permutation; lia.
Qed.

Lemma shuffle_symbols_Permutation l g :
  (shuffle_symbols l (length l) g).1 ≡ₚ l.
Proof.
  unfold shuffle_symbols. destruct l as [|a l]; [done|].
  apply shuffle_loop_Permutation. simpl. lia.
Qed.

End ShuffleFacts.

(** * Board initialisation *)

(** The 62 symbols the three loops of [init_board] store. *)
Lemma pool_spelled :
  pool = list_ascii_of_string
           "ABCDEFGHIJKLMNOPQRSTUVWXYZabcdefghijklmnopqrstuvwxyz0123456789".
Proof. reflexivity. Qed.

Lemma length_pool : length pool = 62.
Proof. reflexivity. Qed.

Lemma NoDup_pool : NoDup pool.
Proof. apply (bool_decide_unpack (NoDup pool)). vm_compute. exact I. Qed.

Lemma pair_symbols_from (p : list ascii) k n :
  k + n ≤ length p →
  flat_map (λ i, [p !!! i; p !!! i]) (seq k n) = twice (take n (drop k p)).
Proof.
  revert k. induction n as [|n IH]; intros k Hk; [done|].
  rewrite (drop_S p (p !!! k) k) by (apply list_lookup_lookup_total_lt; lia).
  simpl. f_equal. f_equal. apply IH. lia.
Qed.

Lemma pair_symbols_take (p : list ascii) n :
  n ≤ length p → pair_symbols p n = twice (take n p).
Proof. intros Hn. unfold pair_symbols. by rewrite pair_symbols_from. Qed.

Lemma count_occ_twice (l : list ascii) s :
  count_occ ascii_dec (twice l) s = 2 * count_occ ascii_dec l s.
Proof.
  induction l as [|x l IH]; [done|]. simpl.
  rewrite IH. destruct (ascii_dec x s); lia.
Qed.

Lemma length_twice (l : list ascii) : length (twice l) = 2 * length l.
Proof. induction l as [|x l IH]; [done|]. simpl. rewrite IH. lia. Qed.

Lemma count_occ_NoDup (l : list ascii) s :
  NoDup l → count_occ ascii_dec l s = if decide (s ∈ l) then 1 else 0.
Proof.
  intros Hl. case_decide as Hs.
  - apply list_elem_of_In in Hs.
    apply NoDup_ListNoDup in Hl.
    exact (proj1 (NoDup_count_occ' ascii_dec l) Hl s Hs).
  - apply (count_occ_not_In ascii_dec). by rewrite <-list_elem_of_In.
Qed.

Lemma fill_row_spec syms n idx :
  fill_row syms n idx = ((λ i, face_down (syms !!! i)) <$> seq idx n, idx + n).
Proof.
  revert idx. induction n as [|n IH]; intros idx; simpl.
  - by rewrite Nat.add_0_r.
  - rewrite IH. f_equal. lia.
Qed.

Lemma fill_rows_cards syms rows cols idx :
  cards (fill_rows syms rows cols idx)
  = (λ i, face_down (syms !!! i)) <$> seq idx (rows * cols).
Proof.
  revert idx. induction rows as [|rows IH]; intros idx; [done|].
  simpl. rewrite fill_row_spec. unfold cards in *. simpl.
  by rewrite IH, seq_app, fmap_app.
Qed.

Lemma fill_rows_shaped syms rows cols idx :
  shaped rows cols (fill_rows syms rows cols idx).
Proof.
  revert idx. induction rows as [|rows IH]; intros idx.
  - by split.
  - simpl. rewrite fill_row_spec. destruct (IH (idx + cols)) as [Hlen Hrows].
    split; simpl; [by rewrite Hlen|].
    constructor; [|done]. by rewrite length_fmap, length_seq.
Qed.

Lemma fill_rows_hidden syms rows cols idx :
  all_cards hidden (fill_rows syms rows cols idx).
Proof.
  revert idx. induction rows as [|rows IH]; intros idx; [constructor|].
  simpl. rewrite fill_row_spec. constructor; [|apply IH].
  apply Forall_fmap, Forall_forall. by intros i _.
Qed.

(** Placing a list of exactly [rows * cols] symbols puts them on the board
    in order. *)
Lemma fill_rows_symbols syms rows cols :
  length syms = rows * cols →
  symbol <$> cards (fill_rows syms rows cols 0) = syms.
Proof.
  intros Hlen. rewrite fill_rows_cards, <-list_fmap_compose.
  apply list_eq. intros i. rewrite list_lookup_fmap.
  destruct (decide (i < rows * cols)) as [Hi|Hi].
  - rewrite lookup_seq_lt by done. simpl.
    symmetry. apply list_lookup_lookup_total_lt. lia.
  - rewrite lookup_seq_ge by lia. simpl.
    symmetry. apply lookup_ge_None. lia.
Qed.

Lemma hidden_count_open (b : Board) : all_cards hidden b → count_open b = 0.
Proof.
  unfold count_open. induction 1 as [|row b Hrow _ IH]; [done|].
  simpl. rewrite IH. rewrite Nat.add_0_r.
  induction Hrow as [|k row [Hrev _] _ IHrow]; [done|].
  simpl. rewrite IHrow. unfold open_weight, is_open. by rewrite Hrev.
Qed.

Lemma hidden_matched_shown (b : Board) :
  all_cards hidden b → all_cards matched_shown b.
Proof.
  intros Hall. eapply Forall_impl; [exact Hall|]. intros row Hrow.
  eapply Forall_impl; [exact Hrow|]. intros k [_ Hm]. unfold matched_shown.
  congruence.
Qed.

Section InitFacts.

Variables BOARD_ROWS BOARD_COLS : nat.
Variable rng : Type.
Variable srand : Z → rng.
Variable rand : rng → Z * rng.
Variable clk : clock.

Local Abbreviation init_board := (init_board BOARD_ROWS BOARD_COLS rng rand).
Local Abbreviation main_start :=
  (main_start BOARD_ROWS BOARD_COLS rng srand rand clk).
Local Abbreviation reachable :=
  (reachable BOARD_ROWS BOARD_COLS rng srand rand clk).
Local Abbreviation pair_count := (BOARD_ROWS * BOARD_COLS / 2).
Local Abbreviation shuffled := (shuffled BOARD_ROWS BOARD_COLS rng rand).

Lemma init_board_too_many g :
  length pool < pair_count →
  init_board g = InitExit (mkExit 1 [MsgNotEnoughSymbols]).
Proof.
  intros Hmany. unfold init_board.
  destruct (Nat.ltb_spec (length pool) pair_count); [done|lia].
Qed.

Lemma init_board_enough g :
  pair_count ≤ length pool →
  ∃ g', init_board g = InitOk (fill_rows (shuffled g) BOARD_ROWS BOARD_COLS 0) g'.
Proof.
  intros Henough. unfold init_board, shuffled.
  destruct (Nat.ltb_spec (length pool) pair_count); [lia|].
  destruct (shuffle_symbols _ _ _ _ _) as [syms g']. by exists g'.
Qed.

Lemma init_board_InitOk g b g' :
  init_board g = InitOk b g' →
  pair_count ≤ length pool ∧ b = fill_rows (shuffled g) BOARD_ROWS BOARD_COLS 0.
Proof.
  intros Hinit. destruct (decide (pair_count ≤ length pool)) as [Hle|Hgt].
  - destruct (init_board_enough g Hle) as [g'' Heq]. split; [done|]. congruence.
  - rewrite init_board_too_many in Hinit by lia. done.
Qed.

(** [main] enters its loop with a consistent game. *)
Lemma main_start_inv g :
  main_start = inr g → game_inv BOARD_ROWS BOARD_COLS g.
Proof.
  unfold main_start. case_match; [done|].
  destruct (init_board _) as [b g'|e] eqn:Hinit; [|done].
  intros [= <-]. apply init_board_InitOk in Hinit as [_ ->].
  pose proof (fill_rows_hidden (shuffled (srand (time_seed clk mod 2 ^ 32)%Z))
                BOARD_ROWS BOARD_COLS 0) as Hhidden.
  apply loop_head_inv; simpl.
  - apply fill_rows_shaped.
  - by apply hidden_matched_shown.
  - by apply hidden_count_open.
  - unfold total_pairs. split; [done|].
    apply Z.quot_pos; lia.
Qed.

Lemma reachable_inv g : reachable g → game_inv BOARD_ROWS BOARD_COLS g.
Proof.
  induction 1 as [g Hstart|g i _ IH].
  - by apply main_start_inv.
  - by apply step_inv.
Qed.

Lemma reachable_run g inputs : reachable g → reachable (run BOARD_ROWS BOARD_COLS clk g inputs).
Proof.
  revert g. induction inputs as [|i inputs IH]; intros g Hg; [done|].
  simpl. apply IH. by constructor.
Qed.

End InitFacts.

(** * The turn: what one pick does *)

Section TurnFacts.

Variables BOARD_ROWS BOARD_COLS : nat.
Variable clk : clock.

Local Abbreviation pick_card := (pick_card BOARD_ROWS BOARD_COLS).
Local Abbreviation total_pairs := (total_pairs BOARD_ROWS BOARD_COLS).
Local Abbreviation loop_head := (loop_head BOARD_ROWS BOARD_COLS clk).
Local Abbreviation second_pick := (second_pick BOARD_ROWS BOARD_COLS clk).
Local Abbreviation compare_cards := (compare_cards BOARD_ROWS BOARD_COLS clk).
Local Abbreviation acknowledge := (acknowledge BOARD_ROWS BOARD_COLS clk).
Local Abbreviation step := (step BOARD_ROWS BOARD_COLS clk).
Local Abbreviation run := (run BOARD_ROWS BOARD_COLS clk).
Local Abbreviation game_inv := (game_inv BOARD_ROWS BOARD_COLS).
Local Abbreviation in_range := (in_range BOARD_ROWS BOARD_COLS).
Local Abbreviation shaped := (shaped BOARD_ROWS BOARD_COLS).
Local Abbreviation completes_attempt := (completes_attempt BOARD_ROWS BOARD_COLS).

Lemma loop_head_continue g :
  (pairs_found g < total_pairs)%Z →
  loop_head g = say [MsgBoard (display_board (board g)); MsgPickFirst]
                    (with_pc AwaitingFirstPick g).
Proof.
  intros Hlt. unfold loop_head.
  destruct (Z.ltb_spec (pairs_found g) total_pairs); [done|lia].
Qed.

Lemma loop_head_leave g :
  (total_pairs ≤ pairs_found g)%Z →
  loop_head g
  = say [MsgCongratulations; MsgMoves (moves g);
         time_line (int_of_double (difftime (time_end clk) (start g)))]
        (with_pc Won g).
Proof.
  intros Hge. unfold loop_head.
  destruct (Z.ltb_spec (pairs_found g) total_pairs); [lia|done].
Qed.

(** Typing the coordinates of a card that lies face up and unmatched is
    refused by [pick_card] with the already-revealed message. *)
Lemma pick_card_open b r c :
  in_range r c → is_open (cell b r c) = true →
  pick_card b (typed r c) = (None, [MsgPrompt; MsgAlreadyRevealed]).
Proof.
  intros [Hr Hc] [Hrev Hm]%is_open_true. unfold pick_card, typed.
  replace (Z.to_nat (Z.of_nat r + 1 - 1)) with r by lia.
  replace (Z.to_nat (Z.of_nat c + 1 - 1)) with c by lia.
  rewrite Hm, Hrev.
  destruct (Z.ltb_spec (Z.of_nat r + 1) 1); [lia|].
  destruct (Z.ltb_spec (Z.of_nat c + 1) 1); [lia|].
  rewrite !Z.gtb_ltb.
  destruct (Z.ltb_spec (Z.of_nat BOARD_ROWS) (Z.of_nat r + 1)); [lia|].
  destruct (Z.ltb_spec (Z.of_nat BOARD_COLS) (Z.of_nat c + 1)); [lia|].
  done.
Qed.

(** A won game is over: nothing is read any more. *)
Lemma run_Won g inputs : pc g = Won → run g inputs = g.
Proof.
  intros Hpc. induction inputs as [|i inputs IH]; [done|].
  simpl. unfold step. rewrite Hpc. by destruct i.
Qed.

(** No step of the loop writes a symbol. *)
Lemma loop_head_symbols g : symbols_of (board (loop_head g)) = symbols_of (board g).
Proof. by rewrite loop_head_board. Qed.

Lemma step_symbols g i : symbols_of (board (step g i)) = symbols_of (board g).
Proof.
  unfold step. destruct (pc g) as [|r1 c1|r1 c1 r2 c2| |]; destruct i as [s|];
    try done.
  - unfold first_pick. destruct (pick_card _ _) as [[[r c]|] msgs]; simpl.
    + by apply symbols_update.
    + by rewrite loop_head_symbols.
  - unfold second_pick, compare_cards.
    destruct (pick_card _ _) as [[[r c]|] msgs]; simpl.
    + repeat case_match; rewrite ?loop_head_symbols; game_simpl;
        by rewrite ?symbols_update.
    + rewrite loop_head_symbols. by apply symbols_update.
  - unfold acknowledge. rewrite loop_head_symbols. simpl.
    by rewrite !symbols_update.
Qed.

(** No step of the loop writes [start]. *)
Lemma loop_head_start g : start (loop_head g) = start g.
Proof. unfold loop_head. by case_match. Qed.

Lemma step_start g i : start (step g i) = start g.
Proof.
  unfold step. destruct (pc g) as [|r1 c1|r1 c1 r2 c2| |]; destruct i as [s|];
    try done.
  - unfold first_pick. destruct (pick_card _ _) as [[[r c]|] msgs]; simpl;
      by rewrite ?loop_head_start.
  - unfold second_pick, compare_cards.
    destruct (pick_card _ _) as [[[r c]|] msgs]; simpl;
      repeat case_match; by rewrite ?loop_head_start.
  - unfold acknowledge. by rewrite loop_head_start.
Qed.

(** A value that fits [int] is converted to itself. *)
Lemma int_of_double_fits d :
  (INT_MIN ≤ d ≤ INT_MAX)%Z → int_of_double d = Some d.
Proof. intros Hd. unfold int_of_double. by rewrite decide_True. Qed.

Lemma compare_cards_moves g r1 c1 r2 c2 :
  moves (compare_cards g r1 c1 r2 c2) = moves g.
Proof.
  unfold compare_cards. case_decide; [|done]. by rewrite loop_head_moves.
Qed.

Lemma step_moves g i :
  (moves g < INT_MAX)%Z →
  moves (step g i) = (moves g + if completes_attempt g i then 1 else 0)%Z.
Proof.
  intros Hlt. unfold step, completes_attempt.
  destruct (pc g) as [|r1 c1|r1 c1 r2 c2| |]; destruct i as [s|];
    rewrite ?Z.add_0_r; try done.
  - unfold first_pick. destruct (pick_card _ _) as [[[r c]|] msgs]; simpl;
      [done|]. by rewrite loop_head_moves.
  - unfold second_pick.
    destruct (pick_card _ _) as [[[r2 c2]|] msgs]; simpl.
    + destruct ((r1 =? r2) && (c1 =? c2)); simpl.
      * rewrite loop_head_moves. simpl. lia.
      * destruct (Z.ltb_spec (moves g) INT_MAX); [|lia].
        by rewrite compare_cards_moves.
    + rewrite loop_head_moves. simpl. lia.
  - unfold acknowledge. by rewrite loop_head_moves.
Qed.

End TurnFacts.

(** * A sample run *)

Module SampleRun.

Import Sample.

Abbreviation reachable := (reachable BOARD_ROWS BOARD_COLS Z srand rand clk).
Abbreviation step := (step BOARD_ROWS BOARD_COLS clk).
Abbreviation run := (run BOARD_ROWS BOARD_COLS clk).

Lemma main_start_sample :
  main_start BOARD_ROWS BOARD_COLS Z srand rand clk = inr start_game.
Proof. reflexivity. Qed.

Lemma reachable_after inputs : reachable (after inputs).
Proof. apply reachable_run, reachable_start, main_start_sample. Qed.

Lemma rand_nonneg g : (0 ≤ (rand g).1)%Z.
Proof. unfold rand. simpl. apply Z.mod_pos_bound. lia. Qed.

(** The board dealt with seed 1:
<<
    F F E E
    B A H G
    B A H D
    C C G D
>> *)
Example start_board_dealt :
  symbols_of start_board
  = [list_ascii_of_string "FFEE"; list_ascii_of_string "BAHG";
     list_ascii_of_string "BAHD"; list_ascii_of_string "CCGD"].
Proof. reflexivity. Qed.

Example winning_game :
  pc (after winning_inputs) = Won
  ∧ moves (after winning_inputs) = 8%Z
  ∧ pairs_found (after winning_inputs) = 8%Z.
Proof. by vm_compute. Qed.

End SampleRun.

(** * What the program guarantees *)

Lemma elem_of_twice (l : list ascii) x : x ∈ twice l ↔ x ∈ l.
Proof.
  induction l as [|a l IH]; [done|].
  change (twice (a :: l)) with (a :: a :: twice l).
  rewrite !elem_of_cons, IH. tauto.
Qed.

Section Guarantees.

Variables BOARD_ROWS BOARD_COLS : nat.
Variable rng : Type.
Variable srand : Z → rng.
Variable rand : rng → Z * rng.
Variable clk : clock.

Local Abbreviation init_board := (init_board BOARD_ROWS BOARD_COLS rng rand).
Local Abbreviation main_start :=
  (main_start BOARD_ROWS BOARD_COLS rng srand rand clk).
Local Abbreviation reachable :=
  (reachable BOARD_ROWS BOARD_COLS rng srand rand clk).
Local Abbreviation pair_count := (BOARD_ROWS * BOARD_COLS / 2).
Local Abbreviation shuffled := (shuffled BOARD_ROWS BOARD_COLS rng rand).
Local Abbreviation pick_card := (pick_card BOARD_ROWS BOARD_COLS).
Local Abbreviation total_pairs := (total_pairs BOARD_ROWS BOARD_COLS).
Local Abbreviation loop_head := (loop_head BOARD_ROWS BOARD_COLS clk).
Local Abbreviation second_pick := (second_pick BOARD_ROWS BOARD_COLS clk).
Local Abbreviation compare_cards := (compare_cards BOARD_ROWS BOARD_COLS clk).
Local Abbreviation acknowledge := (acknowledge BOARD_ROWS BOARD_COLS clk).
Local Abbreviation step := (step BOARD_ROWS BOARD_COLS clk).
Local Abbreviation run := (run BOARD_ROWS BOARD_COLS clk).
Local Abbreviation game_inv := (game_inv BOARD_ROWS BOARD_COLS).
Local Abbreviation phase_inv := (phase_inv BOARD_ROWS BOARD_COLS).
Local Abbreviation in_range := (in_range BOARD_ROWS BOARD_COLS).
Local Abbreviation shaped := (shaped BOARD_ROWS BOARD_COLS).
Local Abbreviation completes_attempt := (completes_attempt BOARD_ROWS BOARD_COLS).
Local Abbreviation shuffle_symbols := (shuffle_symbols rng rand).
Local Abbreviation shuffle_swaps := (shuffle_swaps rng rand).

(** [start] holds the second reading of the clock throughout the game. *)
Lemma start_is_time_start g : reachable g → start g = time_start clk.
Proof.
  induction 1 as [g Hstart|g i _ IH]; [|by rewrite step_start].
  revert Hstart. unfold main_start. case_match; [done|].
  destruct (init_board _) as [b g'|e]; [|done].
  intros [= <-]. by rewrite loop_head_start.
Qed.

(** C1. In every state the game loop can reach, after initialisation and
    after any sequence of picks, matches and mismatches, the number of
    cells with [revealed = true] and [matched = false] is 0, 1 or 2,
    never more. *)
Theorem open_cards_at_most_two g :
  reachable g →
  count_open (board g) = 0 ∨ count_open (board g) = 1
  ∨ count_open (board g) = 2.
Proof.
  intros Hg. apply reachable_inv in Hg as [_ _ _ Hph].
  unfold phase_inv in Hph. destruct (pc g); destruct_and?; auto.
Qed.

(** C9. Whatever the turn resolver does after the board was created, no
    cell's symbol is ever modified: the grid of symbols after any sequence
    of inputs is the grid of symbols before it. *)
Theorem symbols_never_change g inputs :
  symbols_of (board (run g inputs)) = symbols_of (board g).
Proof.
  revert g. induction inputs as [|i inputs IH]; intros g; [done|].
  simpl. by rewrite IH, step_symbols.
Qed.

(** C10. In every reachable state every cell with [matched = true] also
    has [revealed = true]. *)
Theorem matched_cards_stay_revealed g :
  reachable g →
  all_cards matched_shown (board g)
  ∧ ∀ r c, r < BOARD_ROWS → c < BOARD_COLS →
      matched (cell (board g) r c) = true →
      revealed (cell (board g) r c) = true.
Proof.
  intros Hg. apply reachable_inv in Hg as [Hb Hms _ _].
  split; [done|]. intros r c Hr Hc.
  by apply (all_cards_cell BOARD_ROWS BOARD_COLS matched_shown).
Qed.

(** C5. The move counter goes up by exactly 1 on an input that completes
    a two-card attempt (a valid second pick distinct from the first),
    whether or not the two cards match, and stays as it is on every other
    input: a rejected pick (malformed, out of range, already matched,
    already revealed) in either slot, a second pick at the coordinates of
    the first, a first pick, an acknowledgement.  ([moves] is a C [int];
    the statement is for counters below [INT_MAX].) *)
Theorem moves_count_completed_attempts g i :
  (moves g < INT_MAX)%Z →
  moves (step g i) = (moves g + if completes_attempt g i then 1 else 0)%Z
  ∧ (∀ s, i = Pick s → (pick_card (board g) s).1 = None →
       completes_attempt g i = false)
  ∧ (∀ r1 c1, pc g = AwaitingSecondPick r1 c1 → i = Pick (typed r1 c1) →
       completes_attempt g i = false)
  ∧ (pc g = AwaitingFirstPick → completes_attempt g i = false)
  ∧ (i = Ack → completes_attempt g i = false).
Proof.
  intros Hlt. split; [by apply step_moves|]. unfold completes_attempt.
  split_and!.
  - intros s -> Hpick. rewrite Hpick. by destruct (pc g).
  - intros r1 c1 -> ->.
    destruct (pick_card (board g) (typed r1 c1)) as [[[r2 c2]|] msgs] eqn:Hpick;
      [|done].
    apply pick_card_Some in Hpick as (_ & _ & _ & _ & zr & zc & Hs & -> & -> & _).
    injection Hs as <- <-. simpl.
    replace (Z.to_nat (Z.of_nat r1 + 1 - 1)) with r1 by lia.
    replace (Z.to_nat (Z.of_nat c1 + 1 - 1)) with c1 by lia.
    by rewrite !Nat.eqb_refl.
  - by intros ->.
  - intros ->. by destruct (pc g).
Qed.

(** C8. When the pair count [BOARD_ROWS * BOARD_COLS / 2] exceeds the
    number of symbols in the pool, [init_board] reports the error and
    exits with status 1 without producing a board, whatever the random
    source; [main] ends with status 1 and never enters the game loop. *)
Theorem too_many_pairs_is_fatal :
  length pool < pair_count →
  (∀ g, init_board g = InitExit (mkExit 1 [MsgNotEnoughSymbols]))
  ∧ (∀ g b g', init_board g ≠ InitOk b g')
  ∧ ∃ e, main_start = inl e ∧ status e = 1%Z
         ∧ ((BOARD_ROWS * BOARD_COLS) mod 2 = 0 →
            printed e = [MsgNotEnoughSymbols]).
Proof.
  intros Hmany. split_and!.
  - intros g. by apply init_board_too_many.
  - intros g b g'. by rewrite init_board_too_many.
  - unfold main_start. destruct (Nat.eqb_spec ((BOARD_ROWS * BOARD_COLS) mod 2) 0).
    + simpl. rewrite init_board_too_many by done. by eexists.
    + simpl. by eexists.
Qed.

(** *** The second pick in detail *)

Lemma compare_cards_equal g r1 c1 r2 c2 :
  symbol (cell (board g) r1 c1) = symbol (cell (board g) r2 c2) →
  compare_cards g r1 c1 r2 c2
  = loop_head
      (incr_pairs_found
         (with_board (update (update (board g) r1 c1 (set_matched true))
                             r2 c2 (set_matched true))
                     (say [MsgMatch] g))).
Proof. intros Heq. unfold compare_cards. by rewrite decide_True. Qed.

Lemma compare_cards_differ g r1 c1 r2 c2 :
  symbol (cell (board g) r1 c1) ≠ symbol (cell (board g) r2 c2) →
  compare_cards g r1 c1 r2 c2
  = say [MsgNoMatch; MsgPressEnter] (with_pc (AwaitingAck r1 c1 r2 c2) g).
Proof. intros Hne. unfold compare_cards. by rewrite decide_False. Qed.

(** Turning the second card up changes no symbol. *)
Lemma second_revealed_symbol g r2 c2 r c :
  shaped (board g) → in_range r2 c2 →
  symbol (cell (board (second_revealed g r2 c2)) r c)
  = symbol (cell (board g) r c).
Proof.
  intros Hb [Hr Hc]. simpl. rewrite (cell_update BOARD_ROWS BOARD_COLS) by done.
  case_decide as Hd; [|done]. by destruct Hd as [-> ->].
Qed.

(** *** The same-card message is never printed *)

Lemma loop_head_output g :
  ∃ ms, output (loop_head g) = output g ++ ms ∧ MsgSameCardTwice ∉ ms.
Proof.
  unfold loop_head.
  case_match; [|destruct (int_of_double _)]; simpl; eexists;
    (split; [done|]); not_in_list.
Qed.

Lemma step_output g i :
  game_inv g →
  ∃ ms, output (step g i) = output g ++ ms ∧ MsgSameCardTwice ∉ ms.
Proof.
  intros Hinv. unfold step.
  destruct (pc g) as [|r1 c1|r1 c1 r2 c2| |] eqn:Hpc; destruct i as [s|];
    try (exists []; split; [by rewrite app_nil_r|not_in_list]).
  - unfold first_pick.
    destruct (pick_card (board g) s) as [[[r c]|] msgs] eqn:Hpick.
    + apply pick_card_Some in Hpick as (_ & _ & _ & -> & _). simpl.
      rewrite <-app_assoc. eexists. split; [done|]. not_in_list.
    + destruct (loop_head_output (say msgs g)) as (ms & -> & Hms). simpl.
      rewrite <-app_assoc. eexists. split; [done|].
      apply pick_card_None in Hpick.
      destruct Hpick as [-> | [-> | [-> | ->]]]; simpl; not_in_list.
  - destruct (pick_card (board g) s) as [[[r2 c2]|] msgs] eqn:Hpick.
    + rewrite (second_pick_valid BOARD_ROWS BOARD_COLS clk g r1 c1 s r2 c2 msgs Hinv Hpc Hpick).
      case_match.
      * unfold compare_cards. case_decide.
        -- match goal with |- context [loop_head ?h] =>
             destruct (loop_head_output h) as (ms & -> & Hms) end.
           simpl. rewrite <-!app_assoc. eexists. split; [done|].
           simpl. not_in_list.
        -- simpl. rewrite <-!app_assoc. eexists. split; [done|].
           simpl. not_in_list.
      * simpl. rewrite <-!app_assoc. eexists. split; [done|].
        simpl. not_in_list.
    + rewrite (second_pick_rejected BOARD_ROWS BOARD_COLS clk g r1 c1 s msgs Hpick).
      match goal with |- context [loop_head ?h] =>
        destruct (loop_head_output h) as (ms & -> & Hms) end.
      simpl. rewrite <-app_assoc. eexists. split; [done|].
      apply pick_card_None in Hpick.
      destruct Hpick as [-> | [-> | [-> | ->]]]; simpl; not_in_list.
  - unfold acknowledge.
    match goal with |- context [loop_head ?h] =>
      destruct (loop_head_output h) as (ms & -> & Hms) end.
    simpl. by exists ms.
Qed.

Lemma never_same_card_twice g : reachable g → MsgSameCardTwice ∉ output g.
Proof.
  induction 1 as [g Hstart|g i Hg IH].
  - unfold main_start in Hstart. case_match; [done|].
    destruct (init_board _) as [b g'|e]; [|done]. injection Hstart as <-.
    match goal with |- context [loop_head ?h] =>
      destruct (loop_head_output h) as (ms & -> & Hms) end.
    simpl. not_in_list.
  - destruct (step_output g i (reachable_inv _ _ _ _ _ _ _ Hg)) as (ms & -> & Hms).
    rewrite elem_of_app. tauto.
Qed.

(** C2. When the second pick names the coordinates of the first pick, the
    first cell's [revealed] flag is reset to false, the move counter is
    unchanged and the program asks for a first card again; but what it
    prints is the already-revealed message of [pick_card], not the
    same-card-twice message, which no run ever prints. *)
Theorem same_card_is_reported_as_revealed g r1 c1 :
  reachable g → pc g = AwaitingSecondPick r1 c1 →
  let g' := step g (Pick (typed r1 c1)) in
  output g' = output g ++ [MsgPrompt; MsgAlreadyRevealed;
                           MsgBoard (display_board (board g')); MsgPickFirst]
  ∧ (MsgSameCardTwice ∉ output g')
  ∧ revealed (cell (board g') r1 c1) = false
  ∧ moves g' = moves g
  ∧ pc g' = AwaitingFirstPick.
Proof.
  intros Hg Hpc g'.
  assert (MsgSameCardTwice ∉ output g') as Hnever
    by (apply never_same_card_twice; by constructor).
  pose proof (reachable_inv _ _ _ _ _ _ _ Hg) as [Hb _ _ Hph].
  unfold phase_inv in Hph. rewrite Hpc in Hph.
  destruct Hph as (Hin & Hopen & _ & Hlt).
  pose proof (pick_card_open _ _ _ _ _ Hin Hopen) as Hpick.
  assert (g' = loop_head (with_board (update (board g) r1 c1 (set_revealed false))
               (say [MsgPrompt; MsgAlreadyRevealed] g))) as Hg'.
  { unfold g', step. rewrite Hpc. by apply second_pick_rejected. }
  rewrite loop_head_continue in Hg' by done.
  clearbody g'. subst g'. simpl. split_and!; try done.
  - by rewrite <-app_assoc.
  - destruct Hin. by rewrite (cell_update_eq BOARD_ROWS BOARD_COLS).
Qed.

(** C6. When the two validly picked distinct cells hold equal symbols,
    both cells become matched and [pairs_found] goes up by 1.  The loop is
    left exactly when [pairs_found] equals [total_pairs], in this step and
    in every reachable state; on leaving, the moves and the elapsed time
    (the last reading of the clock minus the one taken before the loop, as
    minutes and seconds, when it fits [int]) are printed and no further
    input is read. *)
Theorem match_marks_pair_and_ends_game g r1 c1 s r2 c2 msgs :
  reachable g → pc g = AwaitingSecondPick r1 c1 →
  pick_card (board g) s = (Some (r2, c2), msgs) →
  symbol (cell (board g) r1 c1) = symbol (cell (board g) r2 c2) →
  (moves g < INT_MAX)%Z →
  let g' := step g (Pick s) in
  let elapsed := (time_end clk - time_start clk)%Z in
  (r1, c1) ≠ (r2, c2)
  ∧ matched (cell (board g') r1 c1) = true
  ∧ matched (cell (board g') r2 c2) = true
  ∧ pairs_found g' = (pairs_found g + 1)%Z
  ∧ moves g' = (moves g + 1)%Z
  ∧ (pc g' = Won ↔ pairs_found g' = total_pairs)
  ∧ (pc g' = AwaitingFirstPick ↔ (pairs_found g' < total_pairs)%Z)
  ∧ (pc g' = Won → (INT_MIN ≤ elapsed ≤ INT_MAX)%Z →
     output g' = output g
                 ++ [MsgPrompt;
                     MsgBoard (display_board (board (second_revealed g r2 c2)));
                     MsgMatch; MsgCongratulations; MsgMoves (moves g + 1);
                     MsgTime (Z.quot elapsed 60) (Z.rem elapsed 60)])
  ∧ (pc g' = Won → ∀ inputs, run g' inputs = g')
  ∧ (∀ h, reachable h → (pc h = Won ↔ pairs_found h = total_pairs)).
Proof.
  intros Hg Hpc Hpick Hsym Hmoves g' elapsed.
  pose proof (start_is_time_start g Hg) as Hstart.
  pose proof (reachable_inv _ _ _ _ _ _ _ Hg) as Hinv.
  destruct (second_pick_distinct BOARD_ROWS BOARD_COLS g r1 c1 s r2 c2 msgs Hinv Hpc Hpick) as [Hne _].
  destruct (second_revealed_open BOARD_ROWS BOARD_COLS g r1 c1 s r2 c2 msgs Hinv Hpc Hpick)
    as (Hb2 & _ & Hin1 & Hin2 & _ & _ & _ & _).
  assert (g' = compare_cards (incr_moves (second_revealed g r2 c2)) r1 c1 r2 c2)
    as Hg'.
  { unfold g', step. rewrite Hpc.
    rewrite (second_pick_valid BOARD_ROWS BOARD_COLS clk g r1 c1 s r2 c2 msgs Hinv Hpc Hpick).
    by destruct (Z.ltb_spec (moves g) INT_MAX); [|lia]. }
  destruct Hinv as [Hb _ Hpf Hph]. unfold phase_inv in Hph. rewrite Hpc in Hph.
  destruct Hph as (_ & _ & _ & Hlt).
  rewrite compare_cards_equal in Hg'
    by (change (board (incr_moves ?h)) with (board h);
        by rewrite !second_revealed_symbol).
  clearbody g'.
  assert (pc g' = if (pairs_found g + 1 <? total_pairs)%Z
                  then AwaitingFirstPick else Won) as Hpc'
    by (subst g'; by rewrite loop_head_pc).
  split_and!.
  - done.
  - subst g'. rewrite loop_head_board. simpl. destruct Hin1, Hin2.
    rewrite (cell_update_ne BOARD_ROWS BOARD_COLS)
      by (try apply shaped_update; done).
    by rewrite (cell_update_eq BOARD_ROWS BOARD_COLS).
  - subst g'. rewrite loop_head_board. simpl. destruct Hin1, Hin2.
    by rewrite (cell_update_eq BOARD_ROWS BOARD_COLS)
      by (try apply shaped_update; done).
  - subst g'. by rewrite loop_head_pairs_found.
  - subst g'. by rewrite loop_head_moves.
  - rewrite Hpc'. replace (pairs_found g') with (pairs_found g + 1)%Z
      by (subst g'; by rewrite loop_head_pairs_found).
    destruct (Z.ltb_spec (pairs_found g + 1) total_pairs); split;
      (done || lia).
  - rewrite Hpc'. replace (pairs_found g') with (pairs_found g + 1)%Z
      by (subst g'; by rewrite loop_head_pairs_found).
    destruct (Z.ltb_spec (pairs_found g + 1) total_pairs); split;
      (done || lia).
  - intros Hwon Hfits. rewrite Hpc' in Hwon.
    destruct (Z.ltb_spec (pairs_found g + 1) total_pairs) as [|Hge]; [done|].
    subst g'. rewrite loop_head_leave by done. simpl.
    unfold difftime. rewrite Hstart, int_of_double_fits by done.
    by rewrite <-!app_assoc.
  - intros Hwon inputs. by apply run_Won.
  - intros h Hh. apply reachable_inv in Hh as [_ _ _ Hphh].
    unfold phase_inv in Hphh. destruct (pc h); split; intros; try done;
      destruct_and?; lia.
Qed.

(** C7. When the two validly picked distinct cells hold differing
    symbols, the program waits for the acknowledgement with both cards
    shown; after it both cells have [revealed = false] and
    [matched = false], and every other cell is as it was before the
    attempt. *)
Theorem mismatch_hides_both_cards g r1 c1 s r2 c2 msgs :
  reachable g → pc g = AwaitingSecondPick r1 c1 →
  pick_card (board g) s = (Some (r2, c2), msgs) →
  symbol (cell (board g) r1 c1) ≠ symbol (cell (board g) r2 c2) →
  (moves g < INT_MAX)%Z →
  let g1 := step g (Pick s) in
  let g2 := step g1 Ack in
  pc g1 = AwaitingAck r1 c1 r2 c2
  ∧ revealed (cell (board g1) r1 c1) = true
  ∧ revealed (cell (board g1) r2 c2) = true
  ∧ revealed (cell (board g2) r1 c1) = false
  ∧ revealed (cell (board g2) r2 c2) = false
  ∧ matched (cell (board g2) r1 c1) = false
  ∧ matched (cell (board g2) r2 c2) = false
  ∧ (∀ r c, (r, c) ≠ (r1, c1) → (r, c) ≠ (r2, c2) →
       cell (board g2) r c = cell (board g) r c)
  ∧ pairs_found g2 = pairs_found g
  ∧ moves g2 = (moves g + 1)%Z
  ∧ pc g2 = AwaitingFirstPick.
Proof.
  intros Hg Hpc Hpick Hsym Hmoves g1 g2.
  pose proof (reachable_inv _ _ _ _ _ _ _ Hg) as Hinv.
  destruct (second_pick_distinct BOARD_ROWS BOARD_COLS g r1 c1 s r2 c2 msgs Hinv Hpc Hpick) as [Hne _].
  destruct (second_revealed_open BOARD_ROWS BOARD_COLS g r1 c1 s r2 c2 msgs Hinv Hpc Hpick)
    as (Hb2 & _ & Hin1 & Hin2 & _ & [Hrev1 Hm1]%is_open_true
        & [Hrev2 Hm2]%is_open_true & _).
  assert (g1 = say [MsgNoMatch; MsgPressEnter]
                   (with_pc (AwaitingAck r1 c1 r2 c2)
                            (incr_moves (second_revealed g r2 c2)))) as Hg1.
  { unfold g1, step. rewrite Hpc.
    rewrite (second_pick_valid BOARD_ROWS BOARD_COLS clk g r1 c1 s r2 c2 msgs Hinv Hpc Hpick).
    destruct (Z.ltb_spec (moves g) INT_MAX); [|lia].
    apply compare_cards_differ.
    change (board (incr_moves ?h)) with (board h).
    by rewrite !second_revealed_symbol by by destruct Hinv. }
  destruct Hinv as [Hb _ Hpf Hph]. unfold phase_inv in Hph. rewrite Hpc in Hph.
  destruct Hph as (_ & _ & _ & Hlt).
  clearbody g1.
  assert (g2 = loop_head
                 (with_board
                    (update (update (board g1) r1 c1 (set_revealed false))
                            r2 c2 (set_revealed false)) g1)) as Hg2
    by (unfold g2, step; by rewrite Hg1).
  clearbody g2. rewrite loop_head_continue in Hg2 by (by rewrite Hg1).
  subst g2 g1. simpl in *. destruct Hin1 as [Hr1 Hc1], Hin2 as [Hr2 Hc2].
  assert (shaped (update (update (board g) r2 c2 (set_revealed true))
                         r1 c1 (set_revealed false))) as Hb3
    by by apply shaped_update.
  split_and!; try done.
  - rewrite (cell_update_ne BOARD_ROWS BOARD_COLS) by done.
    by rewrite (cell_update_eq BOARD_ROWS BOARD_COLS).
  - by rewrite (cell_update_eq BOARD_ROWS BOARD_COLS).
  - rewrite (cell_update_ne BOARD_ROWS BOARD_COLS) by done.
    rewrite (cell_update_eq BOARD_ROWS BOARD_COLS) by done. done.
  - rewrite (cell_update_eq BOARD_ROWS BOARD_COLS) by done. simpl.
    by rewrite (cell_update_ne BOARD_ROWS BOARD_COLS).
  - intros r c Hn1 Hn2.
    rewrite !(cell_update_ne BOARD_ROWS BOARD_COLS); try done;
      by apply shaped_update.
Qed.

(** The C library promises [0 <= rand() <= RAND_MAX]. *)
Hypothesis rand_nonneg : ∀ g, (0 ≤ (rand g).1)%Z.

(** C4. For every sequence and every state of the random source the
    shuffle permutes the sequence: the result has the same elements with
    the same multiplicities, it is obtained by the swaps of the loop, whose
    first index [i] runs from [N - 1] down to 1 and whose second index lies
    in [0, i], and a swap exchanges the elements at its two indices. *)
Theorem shuffle_permutes symbols g :
  let N := length symbols in
  let swaps := shuffle_swaps (N - 1) g in
  (shuffle_symbols symbols N g).1 ≡ₚ symbols
  ∧ (shuffle_symbols symbols N g).1 = foldl apply_swap symbols swaps
  ∧ swaps.*1 = reverse (seq 1 (N - 1))
  ∧ Forall (λ ij, ij.2 ≤ ij.1) swaps
  ∧ ∀ (l : list ascii) i j, i < length l → j < length l →
      swap l i j !!! i = l !!! j ∧ swap l i j !!! j = l !!! i
      ∧ ∀ k, k ≠ i → k ≠ j → swap l i j !!! k = l !!! k.
Proof.
  intros N swaps. split_and!.
  - by apply shuffle_symbols_Permutation.
  - apply shuffle_loop_swaps.
  - apply shuffle_swaps_indices.
  - by apply shuffle_swaps_bounded.
  - apply swap_lookup.
Qed.

(** C3. For a valid configuration ([BOARD_ROWS * BOARD_COLS] even and the
    pair count not above the pool size) [init_board] produces a board of
    the configured shape on which exactly [BOARD_ROWS * BOARD_COLS / 2]
    distinct symbols are used (the first ones of the pool), every symbol in
    use occupies exactly 2 cells, and every cell has [revealed = false] and
    [matched = false]. *)
Theorem init_board_deals_pairs g :
  (BOARD_ROWS * BOARD_COLS) mod 2 = 0 →
  pair_count ≤ length pool →
  ∃ b g', init_board g = InitOk b g'
    ∧ shaped b
    ∧ length (used_symbols b) = pair_count
    ∧ used_symbols b ≡ₚ take pair_count pool
    ∧ (∀ s, s ∈ used_symbols b → occurrences s b = 2)
    ∧ all_cards hidden b.
Proof.
  intros Heven Hle. destruct (init_board_enough _ _ _ rand g Hle) as [g' Hinit].
  eexists _, g'. split; [exact Hinit|].
  pose proof (Nat.div_mod_eq (BOARD_ROWS * BOARD_COLS) 2) as Hdiv.
  assert (length (pair_symbols pool pair_count) = BOARD_ROWS * BOARD_COLS) as Hlen.
  { rewrite pair_symbols_take, length_twice, length_take by done. lia. }
  assert (shuffled g ≡ₚ pair_symbols pool pair_count) as Hperm.
  { pose proof (shuffle_symbols_Permutation rng rand rand_nonneg
                  (pair_symbols pool pair_count) g) as Hp.
    by rewrite Hlen in Hp. }
  assert (length (shuffled g) = BOARD_ROWS * BOARD_COLS) as Hlen'
    by by rewrite Hperm.
  pose proof (fill_rows_symbols _ _ _ Hlen') as Hsyms.
  assert (NoDup (take pair_count pool)) as Hnodup
    by (apply (sublist_NoDup _ pool); [apply NoDup_pool|apply sublist_take]).
  assert (∀ s, occurrences s (fill_rows (shuffled g) BOARD_ROWS BOARD_COLS 0)
               = if decide (s ∈ take pair_count pool) then 2 else 0) as Hocc.
  { intros s. unfold occurrences. rewrite Hsyms.
    rewrite (proj1 (Permutation_count_occ ascii_dec _ _) Hperm).
    rewrite pair_symbols_take, count_occ_twice, count_occ_NoDup by done.
    by case_decide. }
  assert (used_symbols (fill_rows (shuffled g) BOARD_ROWS BOARD_COLS 0)
          ≡ₚ take pair_count pool) as Hused.
  { apply NoDup_Permutation; [apply NoDup_remove_dups|done|].
    intros s. unfold used_symbols.
    rewrite elem_of_remove_dups, Hsyms, Hperm, pair_symbols_take by done.
    apply elem_of_twice. }
  split_and!.
  - apply fill_rows_shaped.
  - rewrite Hused, length_take. lia.
  - done.
  - intros s Hs. rewrite Hocc. rewrite Hused in Hs. by rewrite decide_True.
  - apply fill_rows_hidden.
Qed.

End Guarantees.

(** * The guarantees on the sample run

    Each statement above that has premises is applied here to the 4x4 board
    dealt with seed 1 (see [SampleRun.start_board_dealt]), the premises being
    checked by running the program. *)

(** Two different cards are up and the program waits for Enter. *)
Lemma open_cards_at_most_two_witness :
  SampleRun.reachable (Sample.after [Pick (typed 0 0); Pick (typed 1 0)])
  ∧ count_open (board (Sample.after [Pick (typed 0 0); Pick (typed 1 0)])) = 2.
Proof.
  split; [apply SampleRun.reachable_after|].
  destruct (open_cards_at_most_two Sample.BOARD_ROWS Sample.BOARD_COLS Z
              Sample.srand Sample.rand Sample.clk
              (Sample.after [Pick (typed 0 0); Pick (typed 1 0)])
              (SampleRun.reachable_after _)) as [H|[H|H]].
  - vm_compute in H. discriminate H.
  - vm_compute in H. discriminate H.
  - exact H.
Defined.

(** After the first pair (the two F) was found. *)
Lemma matched_cards_stay_revealed_witness :
  SampleRun.reachable (Sample.after [Pick (typed 0 0); Pick (typed 0 1)])
  ∧ matched (cell (board (Sample.after [Pick (typed 0 0); Pick (typed 0 1)])) 0 1)
    = true
  ∧ revealed (cell (board (Sample.after [Pick (typed 0 0); Pick (typed 0 1)])) 0 1)
    = true.
Proof.
  split; [apply SampleRun.reachable_after|]. split; [reflexivity|].
  apply (matched_cards_stay_revealed Sample.BOARD_ROWS Sample.BOARD_COLS Z
           Sample.srand Sample.rand Sample.clk _ (SampleRun.reachable_after _)).
  - unfold Sample.BOARD_ROWS. lia.
  - unfold Sample.BOARD_COLS. lia.
  - reflexivity.
Defined.

(** The second card of a mismatching attempt is counted as one move. *)
Lemma moves_count_completed_attempts_witness :
  (moves (Sample.after [Pick (typed 0 0)]) < INT_MAX)%Z
  ∧ moves (SampleRun.step (Sample.after [Pick (typed 0 0)]) (Pick (typed 1 0)))
    = 1%Z.
Proof.
  assert (moves (Sample.after [Pick (typed 0 0)]) < INT_MAX)%Z as Hlt
    by reflexivity.
  split; [exact Hlt|].
  destruct (moves_count_completed_attempts Sample.BOARD_ROWS Sample.BOARD_COLS
              Sample.clk (Sample.after [Pick (typed 0 0)]) (Pick (typed 1 0)) Hlt)
    as [Hmoves _].
  rewrite Hmoves. reflexivity.
Defined.

(** A 12x12 board would need 72 symbols. *)
Lemma too_many_pairs_is_fatal_witness :
  length pool < 12 * 12 / 2
  ∧ init_board 12 12 Z Sample.rand (Sample.srand 1)
    = InitExit (mkExit 1 [MsgNotEnoughSymbols]).
Proof.
  assert (length pool < 12 * 12 / 2) as Hmany by (vm_compute; lia).
  split; [exact Hmany|].
  apply (too_many_pairs_is_fatal 12 12 Z Sample.srand Sample.rand Sample.clk Hmany).
Defined.

(** Typing [1 1] twice. *)
Lemma same_card_is_reported_as_revealed_witness :
  pc (Sample.after [Pick (typed 0 0)]) = AwaitingSecondPick 0 0
  ∧ MsgAlreadyRevealed
    ∈ output (SampleRun.step (Sample.after [Pick (typed 0 0)]) (Pick (typed 0 0)))
  ∧ MsgSameCardTwice
    ∉ output (SampleRun.step (Sample.after [Pick (typed 0 0)]) (Pick (typed 0 0))).
Proof.
  assert (pc (Sample.after [Pick (typed 0 0)]) = AwaitingSecondPick 0 0) as Hpc
    by reflexivity.
  split; [exact Hpc|].
  destruct (same_card_is_reported_as_revealed Sample.BOARD_ROWS Sample.BOARD_COLS
              Z Sample.srand Sample.rand Sample.clk _ 0 0
              (SampleRun.reachable_after _) Hpc) as (Hout & Hnever & _).
  split; [|exact Hnever].
  rewrite Hout, elem_of_app, !elem_of_cons. tauto.
Defined.

(** The last pair of the winning game (the two C of the bottom row). *)
Lemma match_marks_pair_and_ends_game_witness :
  pc (Sample.after (take 15 Sample.winning_inputs)) = AwaitingSecondPick 3 0
  ∧ pc (SampleRun.step (Sample.after (take 15 Sample.winning_inputs))
                       (Pick (typed 3 1))) = Won
  ∧ pairs_found (SampleRun.step (Sample.after (take 15 Sample.winning_inputs))
                                (Pick (typed 3 1))) = 8%Z
  ∧ (INT_MIN ≤ time_end Sample.clk - time_start Sample.clk ≤ INT_MAX)%Z
  ∧ MsgTime 1 23
    ∈ output (SampleRun.step (Sample.after (take 15 Sample.winning_inputs))
                             (Pick (typed 3 1))).
Proof.
  assert (pc (Sample.after (take 15 Sample.winning_inputs))
          = AwaitingSecondPick 3 0) as Hpc by reflexivity.
  assert (INT_MIN ≤ time_end Sample.clk - time_start Sample.clk ≤ INT_MAX)%Z
    as Hfits by (split; vm_compute; discriminate).
  split; [exact Hpc|].
  destruct (match_marks_pair_and_ends_game Sample.BOARD_ROWS Sample.BOARD_COLS
              Z Sample.srand Sample.rand Sample.clk
              (Sample.after (take 15 Sample.winning_inputs))
              3 0 (typed 3 1) 3 1 [MsgPrompt]
              (SampleRun.reachable_after _) Hpc eq_refl eq_refl eq_refl)
    as (_ & _ & _ & Hpairs & _ & Hwon & _ & Hout & _).
  assert (pc (SampleRun.step (Sample.after (take 15 Sample.winning_inputs))
                             (Pick (typed 3 1))) = Won) as Hpc'
    by (apply Hwon; rewrite Hpairs; reflexivity).
  split; [exact Hpc'|]. split; [rewrite Hpairs; reflexivity|].
  split; [exact Hfits|].
  rewrite (Hout Hpc' Hfits). rewrite elem_of_app. right.
  do 5 apply list_elem_of_further. apply list_elem_of_here.
Defined.

(** F against B: both are hidden again after Enter. *)
Lemma mismatch_hides_both_cards_witness :
  pc (Sample.after [Pick (typed 0 0)]) = AwaitingSecondPick 0 0
  ∧ symbol (cell (board (Sample.after [Pick (typed 0 0)])) 0 0)
    ≠ symbol (cell (board (Sample.after [Pick (typed 0 0)])) 1 0)
  ∧ revealed
      (cell (board (SampleRun.step
                      (SampleRun.step (Sample.after [Pick (typed 0 0)])
                                      (Pick (typed 1 0)))
                      Ack)) 0 0) = false
  ∧ revealed
      (cell (board (SampleRun.step
                      (SampleRun.step (Sample.after [Pick (typed 0 0)])
                                      (Pick (typed 1 0)))
                      Ack)) 1 0) = false.
Proof.
  assert (pc (Sample.after [Pick (typed 0 0)]) = AwaitingSecondPick 0 0) as Hpc
    by reflexivity.
  assert (symbol (cell (board (Sample.after [Pick (typed 0 0)])) 0 0)
          ≠ symbol (cell (board (Sample.after [Pick (typed 0 0)])) 1 0)) as Hsym
    by (vm_compute; discriminate).
  split; [exact Hpc|]. split; [exact Hsym|].
  destruct (mismatch_hides_both_cards Sample.BOARD_ROWS Sample.BOARD_COLS
              Z Sample.srand Sample.rand Sample.clk
              (Sample.after [Pick (typed 0 0)])
              0 0 (typed 1 0) 1 0 [MsgPrompt]
              (SampleRun.reachable_after _) Hpc eq_refl Hsym eq_refl)
    as (_ & _ & _ & Hrev1 & Hrev2 & _).
  split; [exact Hrev1|exact Hrev2].
Defined.

(** Eight symbols shuffled by the sample generator. *)
Lemma shuffle_permutes_witness :
  (∀ g, (0 ≤ (Sample.rand g).1)%Z)
  ∧ (shuffle_symbols Z Sample.rand (list_ascii_of_string "AABBCCDD") 8 1%Z).1
    ≡ₚ list_ascii_of_string "AABBCCDD".
Proof.
  split; [exact SampleRun.rand_nonneg|].
  apply (shuffle_permutes Z Sample.rand SampleRun.rand_nonneg
           (list_ascii_of_string "AABBCCDD") 1%Z).
Defined.

(** The 4x4 board of the source. *)
Lemma init_board_deals_pairs_witness :
  (∀ g, (0 ≤ (Sample.rand g).1)%Z)
  ∧ (4 * 4) mod 2 = 0 ∧ 4 * 4 / 2 ≤ length pool
  ∧ ∃ b g', init_board 4 4 Z Sample.rand (Sample.srand 1) = InitOk b g'
            ∧ length (used_symbols b) = 8.
Proof.
  assert (4 * 4 / 2 ≤ length pool) as Hle by (vm_compute; lia).
  split; [exact SampleRun.rand_nonneg|]. split; [reflexivity|].
  split; [exact Hle|].
  destruct (init_board_deals_pairs 4 4 Z Sample.rand SampleRun.rand_nonneg
              (Sample.srand 1) eq_refl Hle)
    as (b & g' & Hinit & _ & Hused & _).
  exists b, g'. split; [exact Hinit|exact Hused].
Defined.

(** * More about boards: counting and comparing *)

Section CountFacts.

Context {A : Type}.

Lemma sum_list_with_alter_same (w : A → nat) (f : A → A) (l : list A) i :
  (∀ x, w (f x) = w x) → sum_list_with w (alter f i l) = sum_list_with w l.
Proof.
  intros Hf. revert i. induction l as [|y l IH]; intros [|i]; simpl.
  - done.
  - done.
  - by rewrite Hf.
  - f_equal. apply IH.
Qed.

Lemma sum_list_with_mono (w w' : A → nat) (l : list A) :
  (∀ x, w x ≤ w' x) → sum_list_with w l ≤ sum_list_with w' l.
Proof.
  intros Hw. induction l as [|y l IH]; simpl; [done|].
  specialize (Hw y). lia.
Qed.

End CountFacts.

(** An assignment that the counted property does not see. *)
Lemma count_cards_update_same p (b : Board) r c f :
  (∀ k, p (f k) = p k) → count_cards p (update b r c f) = count_cards p b.
Proof.
  intros Hf. unfold count_cards, update. apply sum_list_with_alter_same.
  intros row. apply sum_list_with_alter_same. intros k. by rewrite Hf.
Qed.

Lemma count_cards_le p q (b : Board) :
  (∀ k, p k = true → q k = true) → count_cards p b ≤ count_cards q b.
Proof.
  intros Hpq. unfold count_cards. apply sum_list_with_mono. intros row.
  apply sum_list_with_mono. intros k. specialize (Hpq k).
  destruct (p k); [by rewrite Hpq|lia].
Qed.

Lemma count_open_count_cards (b : Board) : count_open b = count_cards is_open b.
Proof. reflexivity. Qed.

Section MoreBoardFacts.

Variables rows cols : nat.

Lemma count_cards_update p (b : Board) r c f :
  shaped rows cols b → r < rows → c < cols →
  count_cards p (update b r c f) + (if p (cell b r c) then 1 else 0)
  = count_cards p b + (if p (f (cell b r c)) then 1 else 0).
Proof.
  intros Hb Hr Hc.
  destruct (shaped_cell rows cols b r c Hb Hr Hc) as [Hrow Hcell].
  unfold count_cards, update.
  pose proof (sum_list_with_alter
                (sum_list_with (λ k : Card, if p k then 1 else 0))
                (alter f c) b r _ Hrow) as Houter.
  pose proof (sum_list_with_alter (λ k : Card, if p k then 1 else 0)
                f (b !!! r) c _ Hcell) as Hinner.
  lia.
Qed.

(** A card with the counted property is counted. *)
Lemma count_cards_cell p (b : Board) r c :
  shaped rows cols b → r < rows → c < cols →
  p (cell b r c) = true → 1 ≤ count_cards p b.
Proof.
  intros Hb Hr Hc Hp.
  pose proof (count_cards_update p b r c (λ k, k) Hb Hr Hc) as Hcount.
  destruct (shaped_cell rows cols b r c Hb Hr Hc) as [Hrow Hcell].
  unfold count_cards.
  pose proof (sum_list_with_in _ (sum_list_with (λ k : Card, if p k then 1 else 0))
                b (list_elem_of_lookup_2 _ _ _ Hrow)) as Houter.
  pose proof (sum_list_with_in _ (λ k : Card, if p k then 1 else 0)
                (b !!! r) (list_elem_of_lookup_2 _ _ _ Hcell)) as Hinner.
  simpl in Hinner. rewrite Hp in Hinner. lia.
Qed.

(** The number of cards of a board. *)
Lemma length_cards (b : Board) : shaped rows cols b → length (cards b) = rows * cols.
Proof.
  intros [Hlen Hrows]. unfold cards. subst rows.
  induction Hrows as [|row b Hrow _ IH]; [done|].
  simpl. rewrite length_app, IH, Hrow. done.
Qed.

(** Boards of one shape with the same cards are the same board. *)
Lemma board_ext (b b' : Board) :
  shaped rows cols b → shaped rows cols b' →
  (∀ r c, r < rows → c < cols → cell b r c = cell b' r c) → b = b'.
Proof.
  intros Hb Hb' Hcells.
  apply (list_eq_same_length _ _ rows); [apply Hb'|apply Hb|].
  intros r row row' Hr Hrow Hrow'.
  destruct (shaped_row rows cols b r Hb Hr) as [Hbr Hlen].
  destruct (shaped_row rows cols b' r Hb' Hr) as [Hbr' Hlen'].
  assert (row = b !!! r) as -> by congruence.
  assert (row' = b' !!! r) as -> by congruence.
  apply (list_eq_same_length _ _ cols); [done|done|].
  intros c k k' Hc Hk Hk'.
  apply list_lookup_total_correct in Hk, Hk'. subst k k'.
  by apply Hcells.
Qed.

(** Turning a face-down card up and down again leaves the board as it
    was. *)
Lemma reveal_hide (b : Board) r c :
  shaped rows cols b → r < rows → c < cols →
  revealed (cell b r c) = false →
  update (update b r c (set_revealed true)) r c (set_revealed false) = b.
Proof.
  intros Hb Hr Hc Hrev. apply board_ext; [by repeat apply shaped_update|done|].
  intros r' c' Hr' Hc'.
  rewrite !(cell_update rows cols) by (by repeat apply shaped_update).
  case_decide as Hd; [|done]. destruct Hd as [-> ->].
  rewrite decide_True by done.
  destruct (cell b r' c') as [sym rev mat]. simpl in *. by subst rev.
Qed.

(** The same for two cards, turned up one after the other and then down. *)
Lemma reveal_hide_two (b : Board) r1 c1 r2 c2 :
  shaped rows cols b → r1 < rows → c1 < cols → r2 < rows → c2 < cols →
  revealed (cell b r1 c1) = false → revealed (cell b r2 c2) = false →
  update (update (update (update b r1 c1 (set_revealed true))
                         r2 c2 (set_revealed true))
                 r1 c1 (set_revealed false))
         r2 c2 (set_revealed false) = b.
Proof.
  intros Hb Hr1 Hc1 Hr2 Hc2 Hrev1 Hrev2.
  apply board_ext; [by repeat apply shaped_update|done|].
  intros r c Hr Hc.
  rewrite !(cell_update rows cols) by (by repeat apply shaped_update).
  repeat case_decide; destruct_and?; simplify_eq; try done;
    repeat match goal with
           | |- context [cell b ?r ?c] =>
               destruct (cell b r c) as [? ? ?] eqn:?
           end;
    unfold set_revealed; simpl in *; congruence.
Qed.

End MoreBoardFacts.

(** * Picks that do not find a pair *)

Section PickFacts.

Variables BOARD_ROWS BOARD_COLS : nat.
Variable rng : Type.
Variable srand : Z → rng.
Variable rand : rng → Z * rng.
Variable clk : clock.

Local Abbreviation reachable :=
  (reachable BOARD_ROWS BOARD_COLS rng srand rand clk).
Local Abbreviation pick_card := (pick_card BOARD_ROWS BOARD_COLS).
Local Abbreviation total_pairs := (total_pairs BOARD_ROWS BOARD_COLS).
Local Abbreviation loop_head := (loop_head BOARD_ROWS BOARD_COLS clk).
Local Abbreviation first_pick := (first_pick BOARD_ROWS BOARD_COLS clk).
Local Abbreviation second_pick := (second_pick BOARD_ROWS BOARD_COLS clk).
Local Abbreviation compare_cards := (compare_cards BOARD_ROWS BOARD_COLS clk).
Local Abbreviation acknowledge := (acknowledge BOARD_ROWS BOARD_COLS clk).
Local Abbreviation step := (step BOARD_ROWS BOARD_COLS clk).
Local Abbreviation run := (run BOARD_ROWS BOARD_COLS clk).
Local Abbreviation game_inv := (game_inv BOARD_ROWS BOARD_COLS).
Local Abbreviation phase_inv := (phase_inv BOARD_ROWS BOARD_COLS).
Local Abbreviation in_range := (in_range BOARD_ROWS BOARD_COLS).
Local Abbreviation shaped := (shaped BOARD_ROWS BOARD_COLS).

(** [pick_card] on the coordinates of a card that can be picked. *)
Lemma pick_card_pickable b r c :
  in_range r c → matched (cell b r c) = false → revealed (cell b r c) = false →
  pick_card b (typed r c) = (Some (r, c), [MsgPrompt]).
Proof.
  intros [Hr Hc] Hm Hrev. unfold pick_card, typed.
  replace (Z.to_nat (Z.of_nat r + 1 - 1)) with r by lia.
  replace (Z.to_nat (Z.of_nat c + 1 - 1)) with c by lia.
  rewrite Hm, Hrev.
  destruct (Z.ltb_spec (Z.of_nat r + 1) 1); [lia|].
  destruct (Z.ltb_spec (Z.of_nat c + 1) 1); [lia|].
  rewrite !Z.gtb_ltb.
  destruct (Z.ltb_spec (Z.of_nat BOARD_ROWS) (Z.of_nat r + 1)); [lia|].
  destruct (Z.ltb_spec (Z.of_nat BOARD_COLS) (Z.of_nat c + 1)); [lia|].
  done.
Qed.

(** X1. [pick_card] accepts an input exactly when it is the 1-based
    coordinate pair of a cell inside the board that is neither matched nor
    revealed; it then stores the 0-based coordinates and prints only its
    prompt. *)
Theorem pick_card_accepts b s r c msgs :
  pick_card b s = (Some (r, c), msgs)
  ↔ s = Scan2 (Z.of_nat r + 1) (Z.of_nat c + 1)
    ∧ r < BOARD_ROWS ∧ c < BOARD_COLS
    ∧ matched (cell b r c) = false ∧ revealed (cell b r c) = false
    ∧ msgs = [MsgPrompt].
Proof.
  split.
  - intros Hpick.
    apply pick_card_Some in Hpick
      as ([Hr Hc] & Hm & Hrev & -> & zr & zc & -> & -> & -> & Hzr & Hzc).
    split_and!; try done. f_equal; lia.
  - intros (-> & Hr & Hc & Hm & Hrev & ->). by apply pick_card_pickable.
Qed.

(** At most one card is open when the count says so. *)
Lemma open_cell_unique b r1 c1 r2 c2 :
  shaped b → in_range r1 c1 → in_range r2 c2 → count_open b = 1 →
  is_open (cell b r1 c1) = true → is_open (cell b r2 c2) = true →
  (r1, c1) = (r2, c2).
Proof.
  intros Hb Hin1 Hin2 Hcount Hopen1 Hopen2.
  destruct (decide ((r1, c1) = (r2, c2))) as [|Hne]; [done|exfalso].
  pose proof (hide_count _ _ _ _ _ Hb Hin1 Hopen1) as Hhide.
  destruct Hin1 as [Hr1 Hc1], Hin2 as [Hr2 Hc2].
  assert (is_open (cell (update b r1 c1 (set_revealed false)) r2 c2) = true)
    as Hopen2' by by rewrite (cell_update_ne BOARD_ROWS BOARD_COLS).
  pose proof (count_cards_cell BOARD_ROWS BOARD_COLS is_open _ r2 c2
                (shaped_update _ _ _ _ _ _ Hb) Hr2 Hc2 Hopen2') as Hone.
  rewrite <-count_open_count_cards in Hone. lia.
Qed.

Lemma no_open_cell b r c :
  shaped b → in_range r c → count_open b = 0 → is_open (cell b r c) = false.
Proof.
  intros Hb [Hr Hc] Hcount. destruct (is_open (cell b r c)) eqn:Hopen; [|done].
  pose proof (count_cards_cell BOARD_ROWS BOARD_COLS is_open _ r c Hb Hr Hc Hopen)
    as Hone.
  rewrite <-count_open_count_cards in Hone. lia.
Qed.

(** When [pick_card] answers with the already-revealed message, the card is
    inside the board, face up and unmatched. *)
Lemma pick_card_AlreadyRevealed b s :
  (pick_card b s).2 = [MsgPrompt; MsgAlreadyRevealed] →
  ∃ r c, s = typed r c ∧ in_range r c ∧ is_open (cell b r c) = true.
Proof.
  unfold pick_card. destruct s as [|zr zc]; [done|].
  destruct (_ || _)%Z eqn:Hrange; [done|].
  destruct (matched _) eqn:Hm; [done|].
  destruct (revealed _) eqn:Hrev; [|done]. intros _.
  rewrite !orb_false_iff, !Z.gtb_ltb, !Z.ltb_ge in Hrange.
  exists (Z.to_nat (zr - 1)), (Z.to_nat (zc - 1)). split_and!.
  - unfold typed. f_equal; lia.
  - split; lia.
  - apply is_open_true. by split.
Qed.

(** X2. The already-revealed message is the report of a repeated pick and
    of nothing else: in a reachable state it is never given for a first
    pick, and for a second pick it is given exactly when the input names the
    coordinates of the first pick. *)
Theorem already_revealed_means_same_card g s :
  reachable g →
  (pc g = AwaitingFirstPick →
   (pick_card (board g) s).2 ≠ [MsgPrompt; MsgAlreadyRevealed])
  ∧ (∀ r1 c1, pc g = AwaitingSecondPick r1 c1 →
       ((pick_card (board g) s).2 = [MsgPrompt; MsgAlreadyRevealed]
        ↔ s = typed r1 c1)).
Proof.
  intros Hg. pose proof (reachable_inv _ _ _ _ _ _ _ Hg) as [Hb _ _ Hph].
  unfold phase_inv in Hph. split.
  - intros Hpc Hmsg. rewrite Hpc in Hph. destruct Hph as [Hcount _].
    apply pick_card_AlreadyRevealed in Hmsg as (r & c & _ & Hin & Hopen).
    by rewrite (no_open_cell _ _ _ Hb Hin Hcount) in Hopen.
  - intros r1 c1 Hpc. rewrite Hpc in Hph.
    destruct Hph as (Hin1 & Hopen1 & Hcount & _). split.
    + intros Hmsg.
      apply pick_card_AlreadyRevealed in Hmsg as (r & c & -> & Hin & Hopen).
      by injection (open_cell_unique _ _ _ _ _ Hb Hin1 Hin Hcount Hopen1 Hopen)
        as -> ->.
    + intros ->. by rewrite (pick_card_open _ _ _ _ _ Hin1 Hopen1).
Qed.

(** X3. A rejected first pick changes nothing but the text on the screen:
    the board, both counters and the place in the loop stay as they are,
    and the program prints the complaint, the board and the request for the
    first card again. *)
Theorem rejected_first_pick_changes_nothing g s :
  reachable g → pc g = AwaitingFirstPick →
  (pick_card (board g) s).1 = None →
  let g' := step g (Pick s) in
  board g' = board g ∧ pairs_found g' = pairs_found g ∧ moves g' = moves g
  ∧ pc g' = AwaitingFirstPick
  ∧ output g' = output g ++ (pick_card (board g) s).2
                ++ [MsgBoard (display_board (board g)); MsgPickFirst].
Proof.
  intros Hg Hpc Hpick g'.
  pose proof (reachable_inv _ _ _ _ _ _ _ Hg) as [_ _ _ Hph].
  unfold phase_inv in Hph. rewrite Hpc in Hph. destruct Hph as [_ Hlt].
  assert (g' = loop_head (say (pick_card (board g) s).2 g)) as Hg'.
  { unfold g', step, first_pick. rewrite Hpc.
    destruct (pick_card (board g) s) as [res msgs]. simpl in Hpick.
    by subst res. }
  rewrite loop_head_continue in Hg' by done. clearbody g'. subst g'. simpl.
  split_and!; try done. by rewrite <-app_assoc.
Qed.

(** The first pick, when it is accepted. *)
Lemma first_pick_accepted g s r1 c1 msgs :
  pc g = AwaitingFirstPick → pick_card (board g) s = (Some (r1, c1), msgs) →
  step g (Pick s)
  = say [MsgBoard (display_board (update (board g) r1 c1 (set_revealed true)));
         MsgPickSecond]
        (with_pc (AwaitingSecondPick r1 c1)
                 (with_board (update (board g) r1 c1 (set_revealed true))
                             (say msgs g))).
Proof. intros Hpc Hpick. unfold step, first_pick. by rewrite Hpc, Hpick. Qed.

(** X4. An attempt abandoned at the second pick leaves no trace: when the
    first pick is accepted and the second one is rejected (for whatever
    reason), the board is again exactly the board before the first pick, the
    counters are unchanged and the program asks for a first card. *)
Theorem abandoned_attempt_restores_board g s1 r1 c1 msgs s2 :
  reachable g → pc g = AwaitingFirstPick →
  pick_card (board g) s1 = (Some (r1, c1), msgs) →
  let g1 := step g (Pick s1) in
  (pick_card (board g1) s2).1 = None →
  let g2 := step g1 (Pick s2) in
  board g2 = board g ∧ pairs_found g2 = pairs_found g ∧ moves g2 = moves g
  ∧ pc g2 = AwaitingFirstPick.
Proof.
  intros Hg Hpc Hpick1 g1 Hpick2 g2.
  pose proof (reachable_inv _ _ _ _ _ _ _ Hg) as [Hb _ _ Hph].
  unfold phase_inv in Hph. rewrite Hpc in Hph. destruct Hph as [_ Hlt].
  pose proof (first_pick_accepted _ _ _ _ _ Hpc Hpick1) as Hg1. fold g1 in Hg1.
  apply pick_card_Some in Hpick1 as ([Hr1 Hc1] & _ & Hrev & _).
  assert (g2 = loop_head
                 (with_board (update (board g1) r1 c1 (set_revealed false))
                             (say (pick_card (board g1) s2).2 g1))) as Hg2.
  { unfold g2, step. rewrite Hg1 at 1. simpl.
    destruct (pick_card (board g1) s2) as [res msgs2] eqn:Hp. simpl in Hpick2.
    subst res. by apply second_pick_rejected. }
  clearbody g2 g1. subst g1.
  rewrite loop_head_continue in Hg2 by done. subst g2. simpl.
  split_and!; try done. by apply (reveal_hide BOARD_ROWS BOARD_COLS).
Qed.

(** X5. A mismatching attempt leaves no trace on the board either: after two
    accepted picks of cards with different symbols and the acknowledgement,
    the board is exactly the board before the first pick; only the move
    counter has gone up by one. *)
Theorem mismatch_restores_board g s1 r1 c1 msgs1 s2 r2 c2 msgs2 :
  reachable g → pc g = AwaitingFirstPick →
  pick_card (board g) s1 = (Some (r1, c1), msgs1) →
  let g1 := step g (Pick s1) in
  pick_card (board g1) s2 = (Some (r2, c2), msgs2) →
  symbol (cell (board g) r1 c1) ≠ symbol (cell (board g) r2 c2) →
  (moves g < INT_MAX)%Z →
  let g3 := step (step g1 (Pick s2)) Ack in
  board g3 = board g ∧ pairs_found g3 = pairs_found g
  ∧ moves g3 = (moves g + 1)%Z ∧ pc g3 = AwaitingFirstPick.
Proof.
  intros Hg Hpc Hpick1 g1 Hpick2 Hsym Hmoves g3.
  pose proof (reachable_inv _ _ _ _ _ _ _ Hg) as [Hb _ _ Hph].
  unfold phase_inv in Hph. rewrite Hpc in Hph. destruct Hph as [_ Hlt].
  assert (reachable g1) as Hg1r by by constructor.
  pose proof (reachable_inv _ _ _ _ _ _ _ Hg1r) as Hinv1.
  pose proof (first_pick_accepted _ _ _ _ _ Hpc Hpick1) as Hg1. fold g1 in Hg1.
  assert (pc g1 = AwaitingSecondPick r1 c1) as Hpc1 by by rewrite Hg1.
  assert (board g1 = update (board g) r1 c1 (set_revealed true)) as Hb1
    by by rewrite Hg1.
  assert (moves g1 = moves g) as Hm1 by by rewrite Hg1.
  assert (pairs_found g1 = pairs_found g) as Hp1 by by rewrite Hg1.
  apply pick_card_Some in Hpick1 as ([Hr1 Hc1] & _ & Hrev1 & _).
  pose proof (pick_card_Some _ _ _ _ _ _ _ Hpick2) as ([Hr2 Hc2] & _ & Hrev2 & _).
  destruct (second_pick_distinct BOARD_ROWS BOARD_COLS g1 r1 c1 s2 r2 c2 msgs2
              Hinv1 Hpc1 Hpick2) as [Hne _].
  assert (step g1 (Pick s2)
          = say [MsgNoMatch; MsgPressEnter]
                (with_pc (AwaitingAck r1 c1 r2 c2)
                         (incr_moves (second_revealed g1 r2 c2)))) as Hg2.
  { unfold step. rewrite Hpc1.
    rewrite (second_pick_valid BOARD_ROWS BOARD_COLS clk g1 r1 c1 s2 r2 c2 msgs2
               Hinv1 Hpc1 Hpick2).
    destruct (Z.ltb_spec (moves g1) INT_MAX); [|lia].
    unfold compare_cards. rewrite decide_False; [done|].
    simpl. rewrite Hb1.
    rewrite !(cell_update BOARD_ROWS BOARD_COLS) by (by repeat apply shaped_update).
    repeat case_decide; destruct_and?; simplify_eq; done. }
  assert (g3 = loop_head
                 (with_board
                    (update (update (board (second_revealed g1 r2 c2))
                                    r1 c1 (set_revealed false))
                            r2 c2 (set_revealed false))
                    (step g1 (Pick s2)))) as Hg3
    by (unfold g3, step at 1; by rewrite Hg2).
  clearbody g3. rewrite Hg2 in Hg3.
  rewrite loop_head_continue in Hg3 by (simpl; lia).
  subst g3. simpl. rewrite Hb1, Hm1, Hp1. split_and!; try done.
  rewrite Hb1 in Hrev2.
  rewrite (cell_update_ne BOARD_ROWS BOARD_COLS) in Hrev2 by done.
  by apply (reveal_hide_two BOARD_ROWS BOARD_COLS).
Qed.

End PickFacts.

(** * The counters and the printed text follow the board *)

(** [m] is not in a text given by its pieces. *)
Ltac not_in_text :=
  let H := fresh in
  intros H;
  repeat (rewrite elem_of_app in H || rewrite elem_of_cons in H
          || rewrite elem_of_nil in H);
  intuition discriminate.

Lemma hidden_count_cards p (b : Board) :
  all_cards hidden b → (∀ k, p k = true → matched k = true) → count_cards p b = 0.
Proof.
  intros Hall Hp. unfold count_cards.
  induction Hall as [|row b Hrow _ IH]; [done|].
  simpl. rewrite IH, Nat.add_0_r.
  induction Hrow as [|k row [_ Hm] _ IHrow]; [done|].
  simpl. rewrite IHrow. destruct (p k) eqn:Hpk; [|done].
  apply Hp in Hpk. congruence.
Qed.

(** [occurrences] counts the cards that carry the symbol. *)
Lemma occurrences_count_cards s (b : Board) :
  occurrences s b = count_cards (has_symbol s) b.
Proof.
  unfold occurrences, count_cards, cards.
  induction b as [|row b IH]; [done|].
  simpl. rewrite fmap_app, count_occ_app, IH. f_equal.
  induction row as [|k row IHrow]; [done|].
  simpl. change (list_fmap Card ascii symbol row) with (symbol <$> row).
  rewrite IHrow. unfold has_symbol.
  destruct (ascii_dec (symbol k) s); case_bool_decide; done.
Qed.

Section CounterFacts.

Variables BOARD_ROWS BOARD_COLS : nat.
Variable rng : Type.
Variable srand : Z → rng.
Variable rand : rng → Z * rng.
Variable clk : clock.

Local Abbreviation init_board := (init_board BOARD_ROWS BOARD_COLS rng rand).
Local Abbreviation main_start :=
  (main_start BOARD_ROWS BOARD_COLS rng srand rand clk).
Local Abbreviation reachable :=
  (reachable BOARD_ROWS BOARD_COLS rng srand rand clk).
Local Abbreviation pair_count := (BOARD_ROWS * BOARD_COLS / 2).
Local Abbreviation shuffled := (shuffled BOARD_ROWS BOARD_COLS rng rand).
Local Abbreviation pick_card := (pick_card BOARD_ROWS BOARD_COLS).
Local Abbreviation total_pairs := (total_pairs BOARD_ROWS BOARD_COLS).
Local Abbreviation loop_head := (loop_head BOARD_ROWS BOARD_COLS clk).
Local Abbreviation first_pick := (first_pick BOARD_ROWS BOARD_COLS clk).
Local Abbreviation second_pick := (second_pick BOARD_ROWS BOARD_COLS clk).
Local Abbreviation compare_cards := (compare_cards BOARD_ROWS BOARD_COLS clk).
Local Abbreviation acknowledge := (acknowledge BOARD_ROWS BOARD_COLS clk).
Local Abbreviation step := (step BOARD_ROWS BOARD_COLS clk).
Local Abbreviation run := (run BOARD_ROWS BOARD_COLS clk).
Local Abbreviation game_inv := (game_inv BOARD_ROWS BOARD_COLS).
Local Abbreviation phase_inv := (phase_inv BOARD_ROWS BOARD_COLS).
Local Abbreviation in_range := (in_range BOARD_ROWS BOARD_COLS).
Local Abbreviation shaped := (shaped BOARD_ROWS BOARD_COLS).
Local Abbreviation turn := (turn BOARD_ROWS BOARD_COLS clk).
Local Abbreviation output_inv := (output_inv clk).

(** Every step of a consistent game is of one of the kinds of [turn]. *)
Lemma step_turn g i : game_inv g → turn g (step g i).
Proof.
  intros Hinv. unfold step.
  destruct (pc g) as [|r1 c1|r1 c1 r2 c2| |] eqn:Hpc; destruct i as [s|];
    try apply turn_idle.
  - unfold first_pick.
    destruct (pick_card (board g) s) as [[[r c]|] msgs] eqn:Hpick.
    + apply pick_card_Some in Hpick as (Hin & Hm & Hrev & -> & _).
      exact (turn_first_accepted BOARD_ROWS BOARD_COLS clk g r c Hpc Hin Hm Hrev).
    + apply turn_first_rejected; [done|]. apply pick_card_None in Hpick.
      destruct Hpick as [-> | [-> | [-> | ->]]]; not_in_text.
  - destruct (pick_card (board g) s) as [[[r2 c2]|] msgs] eqn:Hpick.
    + rewrite (second_pick_valid BOARD_ROWS BOARD_COLS clk g r1 c1 s r2 c2 msgs
                 Hinv Hpc Hpick).
      destruct (second_pick_distinct BOARD_ROWS BOARD_COLS g r1 c1 s r2 c2 msgs
                  Hinv Hpc Hpick) as [Hne _].
      apply pick_card_Some in Hpick as (Hin & Hm & Hrev & _).
      destruct (Z.ltb_spec (moves g) INT_MAX).
      * by apply turn_compared.
      * by apply (turn_overflow _ _ _ _ r1 c1).
    + rewrite (second_pick_rejected BOARD_ROWS BOARD_COLS clk g r1 c1 s msgs Hpick).
      apply turn_second_rejected; [done|]. apply pick_card_None in Hpick.
      destruct Hpick as [-> | [-> | [-> | ->]]]; not_in_text.
  - by apply turn_acknowledged.
Qed.

(** Marking two different cards as matched, as seen by a count. *)
Lemma match_pair_count p (b : Board) r1 c1 r2 c2 :
  shaped b → in_range r1 c1 → in_range r2 c2 → (r1, c1) ≠ (r2, c2) →
  count_cards p (update (update b r1 c1 (set_matched true)) r2 c2 (set_matched true))
  + (if p (cell b r1 c1) then 1 else 0) + (if p (cell b r2 c2) then 1 else 0)
  = count_cards p b + (if p (set_matched true (cell b r1 c1)) then 1 else 0)
    + (if p (set_matched true (cell b r2 c2)) then 1 else 0).
Proof.
  intros Hb [Hr1 Hc1] [Hr2 Hc2] Hne.
  pose proof (count_cards_update BOARD_ROWS BOARD_COLS p b r1 c1
                (set_matched true) Hb Hr1 Hc1) as H1.
  pose proof (count_cards_update BOARD_ROWS BOARD_COLS p _ r2 c2
                (set_matched true)
                (shaped_update _ _ _ r1 c1 (set_matched true) Hb) Hr2 Hc2) as H2.
  rewrite (cell_update_ne BOARD_ROWS BOARD_COLS) in H2 by done. lia.
Qed.

(** What [game_inv] knows when the two cards are compared. *)
Lemma compared_cards g r1 c1 r2 c2 :
  game_inv g → pc g = AwaitingSecondPick r1 c1 → in_range r2 c2 →
  (r1, c1) ≠ (r2, c2) → matched (cell (board g) r2 c2) = false →
  let b2 := update (board g) r2 c2 (set_revealed true) in
  shaped b2 ∧ in_range r1 c1
  ∧ matched (cell b2 r1 c1) = false ∧ matched (cell b2 r2 c2) = false
  ∧ (pairs_found g < total_pairs)%Z.
Proof.
  intros [Hb _ _ Hph] Hpc [Hr2 Hc2] Hne Hm2 b2.
  unfold phase_inv in Hph. rewrite Hpc in Hph.
  destruct Hph as (Hin1 & [_ Hm1]%is_open_true & _ & Hlt).
  split_and!; try done.
  - by apply shaped_update.
  - unfold b2. by rewrite (cell_update_ne BOARD_ROWS BOARD_COLS).
  - unfold b2. by rewrite (cell_update_eq BOARD_ROWS BOARD_COLS).
Qed.

Lemma turn_tally g g' : game_inv g → tally_inv g → turn g g' → tally_inv g'.
Proof.
  intros Hinv [Htally Hmoves] Hturn.
  destruct Hturn as [|msgs Hpc _|r1 c1 Hpc Hin Hm Hrev|r1 c1 msgs Hpc _
                     |r1 c1 r2 c2 Hpc Hin2 Hne Hm2 Hrev2 Hlt|r1 c1 r2 c2 Hpc Hin2
                     |r1 c1 r2 c2 Hpc].
  - done.
  - split; rewrite ?loop_head_board, ?loop_head_pairs_found, ?loop_head_moves;
      done.
  - split; simpl; [|done]. by rewrite count_cards_update_same.
  - split; rewrite ?loop_head_board, ?loop_head_pairs_found, ?loop_head_moves;
      simpl; [|done]. by rewrite count_cards_update_same.
  - destruct (compared_cards g r1 c1 r2 c2 Hinv Hpc Hin2 Hne Hm2)
      as (Hb2 & Hin1 & Hm1' & Hm2' & _).
    unfold compare_cards. case_decide as Hsym.
    + split; rewrite ?loop_head_board, ?loop_head_pairs_found, ?loop_head_moves;
        simpl; [|lia].
      pose proof (match_pair_count matched _ r1 c1 r2 c2 Hb2 Hin1 Hin2 Hne)
        as Hcount.
      rewrite Hm1', Hm2' in Hcount. simpl in Hcount.
      rewrite (count_cards_update_same matched (board g) r2 c2) in Hcount by done.
      lia.
    + split; simpl; [|lia]. by rewrite count_cards_update_same.
  - split; simpl; [|done]. by rewrite count_cards_update_same.
  - unfold acknowledge.
    split; rewrite ?loop_head_board, ?loop_head_pairs_found, ?loop_head_moves;
      simpl; [|done]. by rewrite !count_cards_update_same.
Qed.

Lemma turn_paired g g' : game_inv g → paired_inv g → turn g g' → paired_inv g'.
Proof.
  intros Hinv Hpaired Hturn s. specialize (Hpaired s).
  assert (∀ v k, matched_with s (set_revealed v k) = matched_with s k)
    as Hsame by done.
  assert (∀ v k, has_symbol s (set_revealed v k) = has_symbol s k)
    as Hsame' by done.
  destruct Hturn as [|msgs Hpc _|r1 c1 Hpc Hin Hm Hrev|r1 c1 msgs Hpc _
                     |r1 c1 r2 c2 Hpc Hin2 Hne Hm2 Hrev2 Hlt|r1 c1 r2 c2 Hpc Hin2
                     |r1 c1 r2 c2 Hpc];
    unfold compare_cards, acknowledge; try case_decide;
    rewrite ?loop_head_board; simpl; rewrite ?count_cards_update_same by done;
    try done.
  destruct (compared_cards g r1 c1 r2 c2 Hinv Hpc Hin2 Hne Hm2)
    as (Hb2 & Hin1 & Hm1' & Hm2' & _).
  match goal with H : symbol _ = symbol _ |- _ => rename H into Hsym end.
  simpl in Hsym.
  set (b2 := update (board g) r2 c2 (set_revealed true)) in *.
  pose proof (match_pair_count (matched_with s) b2 r1 c1 r2 c2 Hb2 Hin1 Hin2 Hne)
    as Hcount.
  pose proof (count_cards_le (matched_with s) (has_symbol s)
                (update (update b2 r1 c1 (set_matched true))
                        r2 c2 (set_matched true))) as Hle.
  specialize (Hle ltac:(by intros k [? _]%andb_true_iff)).
  rewrite !(count_cards_update_same (has_symbol s)) in Hle by done.
  assert (count_cards (matched_with s) b2 = count_cards (matched_with s) (board g))
    as Hb2s by by apply count_cards_update_same.
  assert (matched_with s (cell b2 r1 c1) = false) as Hk1
    by (unfold matched_with; rewrite Hm1'; apply andb_false_r).
  assert (matched_with s (cell b2 r2 c2) = false) as Hk2
    by (unfold matched_with; rewrite Hm2'; apply andb_false_r).
  assert (matched_with s (set_matched true (cell b2 r1 c1))
          = has_symbol s (cell b2 r1 c1)) as Hk1' by apply andb_true_r.
  assert (matched_with s (set_matched true (cell b2 r2 c2))
          = has_symbol s (cell b2 r1 c1)) as Hk2'.
  { unfold matched_with, has_symbol. simpl. rewrite Hsym. apply andb_true_r. }
  assert (count_cards (has_symbol s) b2 = count_cards (has_symbol s) (board g))
    as Hb2q by by apply count_cards_update_same.
  rewrite Hk1, Hk2, Hk1', Hk2', Hb2s in Hcount. rewrite Hb2q in Hle.
  destruct (has_symbol s (cell b2 r1 c1)); simpl in Hcount; lia.
Qed.

Lemma loop_head_output_inv h :
  start h = time_start clk → MsgCongratulations ∉ output h →
  output_inv (loop_head h).
Proof.
  intros Hstart Hout. unfold loop_head, output_inv.
  destruct (pairs_found h <? total_pairs)%Z; simpl.
  - split; [done|]. not_in_text.
  - split; [done|]. by exists (output h).
Qed.

Lemma output_inv_running g :
  output_inv g → pc g ≠ Won →
  start g = time_start clk ∧ MsgCongratulations ∉ output g.
Proof. intros [Hstart Hout] Hpc. by rewrite decide_False in Hout. Qed.

Lemma turn_output g g' : output_inv g → turn g g' → output_inv g'.
Proof.
  intros Hout Hturn.
  destruct Hturn as [|msgs Hpc Hmsgs|r1 c1 Hpc Hin Hm Hrev|r1 c1 msgs Hpc Hmsgs
                     |r1 c1 r2 c2 Hpc Hin2 Hne Hm2 Hrev2 Hlt|r1 c1 r2 c2 Hpc Hin2
                     |r1 c1 r2 c2 Hpc];
    try done;
    (destruct (output_inv_running g Hout) as [Hstart Hnot];
     [by rewrite Hpc|]).
  - apply loop_head_output_inv; [done|]. simpl. not_in_text.
  - split; [done|]. simpl. not_in_text.
  - apply loop_head_output_inv; [done|]. simpl. not_in_text.
  - unfold compare_cards. case_decide.
    + apply loop_head_output_inv; [done|]. simpl. not_in_text.
    + split; [done|]. simpl. not_in_text.
  - split; [done|]. simpl. not_in_text.
  - unfold acknowledge. by apply loop_head_output_inv.
Qed.

(** [main] reaches its loop only with an even number of cells and enough
    symbols, and with a freshly dealt board. *)
Lemma main_start_inr g :
  main_start = inr g →
  (BOARD_ROWS * BOARD_COLS) mod 2 = 0 ∧ pair_count ≤ length pool
  ∧ g = loop_head
          (mkGame (fill_rows (shuffled (srand (time_seed clk mod 2 ^ 32)%Z))
                             BOARD_ROWS BOARD_COLS 0)
                  0 0 (time_start clk) AwaitingFirstPick
                  [MsgWelcome; MsgInstructions total_pairs]).
Proof.
  unfold main_start.
  destruct (Nat.eqb_spec ((BOARD_ROWS * BOARD_COLS) mod 2) 0) as [Heven|];
    [|done]. simpl.
  destruct (init_board _) as [b g'|e] eqn:Hinit; [|done].
  apply init_board_InitOk in Hinit as [Hle ->]. by intros [= <-].
Qed.

Lemma reachable_even g : reachable g → (BOARD_ROWS * BOARD_COLS) mod 2 = 0.
Proof.
  induction 1 as [g Hstart|g i _ IH]; [|done].
  by apply main_start_inr in Hstart as [? _].
Qed.

Lemma reachable_tally g : reachable g → tally_inv g.
Proof.
  induction 1 as [g Hstart|g i Hg IH].
  - apply main_start_inr in Hstart as (_ & _ & ->).
    split; rewrite ?loop_head_board, ?loop_head_pairs_found, ?loop_head_moves;
      simpl; [|done].
    rewrite hidden_count_cards; [done|apply fill_rows_hidden|done].
  - eapply turn_tally; [|done|apply step_turn];
      by apply (reachable_inv _ _ _ _ _ _ _ Hg).
Qed.

Lemma reachable_output g : reachable g → output_inv g.
Proof.
  induction 1 as [g Hstart|g i Hg IH].
  - apply main_start_inr in Hstart as (_ & _ & ->).
    apply loop_head_output_inv; [done|]. simpl. not_in_text.
  - eapply turn_output; [done|apply step_turn].
    by apply (reachable_inv _ _ _ _ _ _ _ Hg).
Qed.

(** A count that reaches the number of cards leaves no card out. *)
Lemma count_cards_full p (b : Board) :
  count_cards p b = length (cards b) → all_cards (λ k, p k = true) b.
Proof.
  unfold count_cards, cards, all_cards.
  assert (∀ row : list Card,
            sum_list_with (λ k : Card, if p k then 1 else 0) row ≤ length row)
    as Hrow.
  { induction row as [|k row IH]; simpl; [done|]. destruct (p k); lia. }
  assert (∀ row : list Card,
            sum_list_with (λ k : Card, if p k then 1 else 0) row = length row →
            Forall (λ k, p k = true) row) as Hfull.
  { induction row as [|k row IH]; simpl; [constructor|]. intros Hsum.
    specialize (Hrow row). destruct (p k) eqn:Hpk; [|lia].
    constructor; [done|]. apply IH. lia. }
  induction b as [|row b IH]; simpl; [constructor|]. intros Hsum.
  rewrite length_app in Hsum.
  assert (sum_list_with (sum_list_with (λ k : Card, if p k then 1 else 0)) b
          ≤ length (concat b)) as Hrest.
  { clear IH Hsum. induction b as [|row' b IH]; simpl; [done|].
    rewrite length_app. specialize (Hrow row'). lia. }
  specialize (Hrow row).
  constructor; [apply Hfull; lia|apply IH; lia].
Qed.

(** With every card matched, [display_board] shows every symbol. *)
Lemma display_board_all_matched (b : Board) :
  all_cards (λ k, matched k = true) b → display_board b = symbols_of b.
Proof.
  unfold display_board, symbols_of.
  induction 1 as [|row b Hrow _ IH]; [done|].
  simpl. f_equal; [|exact IH].
  induction Hrow as [|k row Hk _ IHrow]; [done|].
  simpl. rewrite Hk. simpl. f_equal. exact IHrow.
Qed.

Lemma total_pairs_even :
  (BOARD_ROWS * BOARD_COLS) mod 2 = 0 →
  (2 * total_pairs)%Z = Z.of_nat (BOARD_ROWS * BOARD_COLS).
Proof.
  intros Heven. unfold total_pairs.
  pose proof (Nat.div_mod_eq (BOARD_ROWS * BOARD_COLS) 2) as Hdiv.
  rewrite <-Nat2Z.inj_mul, Z.quot_div_nonneg by lia.
  replace (Z.of_nat (BOARD_ROWS * BOARD_COLS))
    with (Z.of_nat (BOARD_ROWS * BOARD_COLS / 2) * 2)%Z at 1 by lia.
  rewrite Z.div_mul by lia. lia.
Qed.

(** X6. [pairs_found] counts what is on the board: in every reachable state
    the number of matched cards is exactly twice [pairs_found]. *)
Theorem matched_cards_are_twice_pairs_found g :
  reachable g →
  Z.of_nat (count_cards matched (board g)) = (2 * pairs_found g)%Z.
Proof. intros Hg. by apply reachable_tally in Hg as [? _]. Qed.

(** X7. The loop is left only with a finished board: in a reachable state
    that has left the loop every card is matched and face up, and what
    [display_board] shows is the whole grid of symbols. *)
Theorem won_board_is_fully_matched g :
  reachable g → pc g = Won →
  all_cards (λ k, matched k = true ∧ revealed k = true) (board g)
  ∧ display_board (board g) = symbols_of (board g).
Proof.
  intros Hg Hpc.
  pose proof (reachable_tally g Hg) as [Htally _].
  pose proof (reachable_even g Hg) as Heven.
  pose proof (reachable_inv _ _ _ _ _ _ _ Hg) as [Hb Hms _ Hph].
  unfold phase_inv in Hph. rewrite Hpc in Hph. destruct Hph as [_ Hpf].
  assert (all_cards (λ k, matched k = true) (board g)) as Hall.
  { apply count_cards_full.
    rewrite (length_cards BOARD_ROWS BOARD_COLS) by done.
    pose proof (total_pairs_even Heven). lia. }
  split; [|by apply display_board_all_matched].
  assert (Forall (λ row, Forall (λ k, matched k = true) row
                         ∧ Forall matched_shown row) (board g)) as Hboth
    by (apply Forall_and; by split).
  eapply Forall_impl; [exact Hboth|].
  intros row Hrow%Forall_and.
  eapply Forall_impl; [exact Hrow|].
  intros k [Hm Hshown]. split; [done|by apply Hshown].
Qed.


(** X10. The congratulation is printed exactly by the games that have left
    the loop: in a reachable state it is part of the text on the screen if
    and only if the state is [Won]. *)
Theorem congratulated_iff_won g :
  reachable g → (MsgCongratulations ∈ output g ↔ pc g = Won).
Proof.
  intros Hg. pose proof (reachable_output g Hg) as [_ Hout].
  case_decide as Hpc.
  - destruct Hout as (pre & -> & _). split; [done|]. intros _.
    rewrite elem_of_app. right. apply list_elem_of_here.
  - split; [by intros ?|done].
Qed.

(** X11. The summary of a finished game: when the clock did not run
    backwards and the elapsed time [end - start] fits [int], the last three
    lines printed are the congratulation, the final value of the move
    counter and the elapsed time split as minutes and seconds, with the
    seconds in 0..59. *)
Theorem summary_reports_moves_and_time g :
  reachable g → pc g = Won → (time_start clk ≤ time_end clk)%Z →
  (time_end clk - time_start clk ≤ INT_MAX)%Z →
  ∃ pre m s,
    output g = pre ++ [MsgCongratulations; MsgMoves (moves g); MsgTime m s]
    ∧ (MsgCongratulations ∉ pre)
    ∧ (0 ≤ m)%Z ∧ (0 ≤ s < 60)%Z
    ∧ (60 * m + s = time_end clk - time_start clk)%Z.
Proof.
  intros Hg Hpc Hclock Hfits.
  pose proof (reachable_output g Hg) as [Hstart Hout].
  rewrite decide_True in Hout by done. destruct Hout as (pre & Hout & Hpre).
  unfold summary, difftime in Hout.
  rewrite Hstart, int_of_double_fits in Hout by (unfold INT_MIN; lia).
  simpl in Hout.
  eexists pre, _, _. split; [exact Hout|]. split; [done|].
  pose proof (Z.quot_rem' (time_end clk - time_start clk) 60).
  pose proof (Z.rem_bound_pos (time_end clk - time_start clk) 60).
  pose proof (Z.quot_pos (time_end clk - time_start clk) 60).
  lia.
Qed.

(** X12. [main] starts a game exactly when the number of cells is even and
    the pair count does not exceed the 62 symbols of the pool; otherwise it
    ends with status 1 after one of its two complaints.  A game starts with
    both counters at 0 and every card face down, asking for the first card
    (or already finished, when there is no pair to find). *)
Theorem main_starts_game_iff :
  ((∃ g, main_start = inr g)
   ↔ (BOARD_ROWS * BOARD_COLS) mod 2 = 0 ∧ pair_count ≤ 62)
  ∧ (∀ e, main_start = inl e →
       status e = 1%Z
       ∧ (printed e = [MsgMustBeEven] ∨ printed e = [MsgNotEnoughSymbols]))
  ∧ (∀ g, main_start = inr g →
       moves g = 0%Z ∧ pairs_found g = 0%Z
       ∧ shaped (board g) ∧ all_cards hidden (board g)
       ∧ pc g = if (0 <? total_pairs)%Z then AwaitingFirstPick else Won).
Proof.
  split_and!.
  - split.
    + intros [g (Heven & Hle & _)%main_start_inr]. by rewrite <-length_pool.
    + intros [Heven Hle]. rewrite <-length_pool in Hle. unfold main_start.
      rewrite Heven. simpl.
      destruct (init_board_enough BOARD_ROWS BOARD_COLS rng rand
                  (srand (time_seed clk mod 2 ^ 32)%Z) Hle) as [g' ->].
      by eexists.
  - intros e. unfold main_start.
    destruct (Nat.eqb_spec ((BOARD_ROWS * BOARD_COLS) mod 2) 0); simpl.
    + destruct (decide (pair_count ≤ length pool)) as [Hle|Hgt].
      * destruct (init_board_enough BOARD_ROWS BOARD_COLS rng rand
                    (srand (time_seed clk mod 2 ^ 32)%Z) Hle) as [g' ->].
        done.
      * rewrite init_board_too_many by lia. intros [= <-]. split; [done|by right].
    + intros [= <-]. split; [done|by left].
  - intros g (_ & _ & ->)%main_start_inr.
    rewrite loop_head_moves, loop_head_pairs_found, loop_head_board, loop_head_pc.
    simpl. split_and!; try done.
    + apply fill_rows_shaped.
    + apply fill_rows_hidden.
Qed.

(** The C library promises [0 <= rand() <= RAND_MAX]. *)
Hypothesis rand_nonneg : ∀ g, (0 ≤ (rand g).1)%Z.

(** How often a symbol lies on a freshly dealt board. *)
Lemma dealt_occurrences g s :
  (BOARD_ROWS * BOARD_COLS) mod 2 = 0 → pair_count ≤ length pool →
  occurrences s (fill_rows (shuffled g) BOARD_ROWS BOARD_COLS 0)
  = if decide (s ∈ take pair_count pool) then 2 else 0.
Proof.
  intros Heven Hle.
  pose proof (Nat.div_mod_eq (BOARD_ROWS * BOARD_COLS) 2) as Hdiv.
  assert (length (pair_symbols pool pair_count) = BOARD_ROWS * BOARD_COLS) as Hlen.
  { rewrite pair_symbols_take, length_twice, length_take by done. lia. }
  assert (shuffled g ≡ₚ pair_symbols pool pair_count) as Hperm.
  { pose proof (shuffle_symbols_Permutation rng rand rand_nonneg
                  (pair_symbols pool pair_count) g) as Hp.
    by rewrite Hlen in Hp. }
  assert (length (shuffled g) = BOARD_ROWS * BOARD_COLS) as Hlen'
    by by rewrite Hperm.
  unfold occurrences. rewrite (fill_rows_symbols _ _ _ Hlen').
  rewrite (proj1 (Permutation_count_occ ascii_dec _ _) Hperm).
  rewrite pair_symbols_take, count_occ_twice, count_occ_NoDup.
  - by case_decide.
  - apply (sublist_NoDup _ pool); [apply NoDup_pool|apply sublist_take].
  - done.
Qed.

Lemma reachable_paired g : reachable g → paired_inv g.
Proof.
  induction 1 as [g Hstart|g i Hg IH].
  - apply main_start_inr in Hstart as (Heven & Hle & ->). intros s.
    rewrite loop_head_board. simpl.
    rewrite <-occurrences_count_cards, dealt_occurrences by done.
    split; [case_decide; lia|]. left.
    apply hidden_count_cards; [apply fill_rows_hidden|].
    by intros k [_ ?]%andb_true_iff.
  - eapply turn_paired; [|done|apply step_turn];
      by apply (reachable_inv _ _ _ _ _ _ _ Hg).
Qed.

(** A board and the grid of its symbols. *)
Lemma cards_symbols (b : Board) : symbol <$> cards b = concat (symbols_of b).
Proof.
  unfold cards, symbols_of. induction b as [|row b IH]; [done|].
  simpl. by rewrite fmap_app, IH.
Qed.

(** On every reachable board a symbol lies on two cards or on none. *)
Lemma reachable_occurrences g s :
  reachable g → occurrences s (board g) = 0 ∨ occurrences s (board g) = 2.
Proof.
  induction 1 as [g Hstart|g i Hg IH].
  - apply main_start_inr in Hstart as (Heven & Hle & ->).
    rewrite loop_head_board. simpl. rewrite dealt_occurrences by done.
    case_decide; auto.
  - unfold occurrences in *. by rewrite cards_symbols, step_symbols, <-cards_symbols.
Qed.

(** X9. Matched cards come in whole pairs of one symbol: in every reachable
    state and for every symbol, either none of the cards with that symbol is
    matched, or exactly two are, and these are all the cards that carry
    it. *)
Theorem matched_cards_come_in_pairs g s :
  reachable g →
  count_cards (matched_with s) (board g) = 0
  ∨ (count_cards (matched_with s) (board g) = 2 ∧ occurrences s (board g) = 2).
Proof.
  intros Hg. pose proof (reachable_paired g Hg s) as [_ Hpaired].
  pose proof (reachable_occurrences g s Hg) as Hocc.
  rewrite occurrences_count_cards in *. lia.
Qed.

End CounterFacts.

(** * The pool, the placement and the shuffle, once more *)

Lemma fill_pool_spec n c hi (p : list ascii) :
  fill_pool n c hi p
  = p ++ (ascii_of_nat <$> seq c (Nat.min (Nat.min n (S hi - c)) (POOL_LIMIT - length p))).
Proof.
  revert c p. induction n as [|n IH]; intros c p.
  - simpl. by rewrite app_nil_r.
  - simpl fill_pool.
    destruct (Nat.leb_spec c hi) as [Hc|Hc];
      destruct (Nat.ltb_spec (length p) POOL_LIMIT) as [Hp|Hp]; simpl andb; cbv iota.
    + rewrite IH, length_app, <-app_assoc. simpl length.
      replace (Nat.min (Nat.min (S n) (S hi - c)) (POOL_LIMIT - length p))
        with (S (Nat.min (Nat.min n (S hi - S c)) (POOL_LIMIT - (length p + 1)))) by lia.
      done.
    + replace (Nat.min (Nat.min (S n) (S hi - c)) (POOL_LIMIT - length p)) with 0 by lia.
      by rewrite app_nil_r.
    + replace (Nat.min (Nat.min (S n) (S hi - c)) (POOL_LIMIT - length p)) with 0 by lia.
      by rewrite app_nil_r.
    + replace (Nat.min (Nat.min (S n) (S hi - c)) (POOL_LIMIT - length p)) with 0 by lia.
      by rewrite app_nil_r.
Qed.

(** X13. One filling loop of [init_board] appends the characters [c], [c+1],
    ... up to [hi] to the pool, in this order, and stops early when the pool
    holds 127 characters: the pool never outgrows its 128-byte array (the
    last byte staying free for the terminating NUL).  The 128 rounds of the
    model are never the reason to stop. *)
Theorem fill_pool_appends_range_within_array n c hi (p : list ascii) :
  POOL_LIMIT < n →
  fill_pool n c hi p
  = p ++ (ascii_of_nat <$> seq c (Nat.min (S hi - c) (POOL_LIMIT - length p)))
  ∧ (length p ≤ POOL_LIMIT → length (fill_pool n c hi p) ≤ POOL_LIMIT).
Proof.
  intros Hn. rewrite fill_pool_spec.
  replace (Nat.min (Nat.min n (S hi - c)) (POOL_LIMIT - length p))
    with (Nat.min (S hi - c) (POOL_LIMIT - length p)) by lia.
  split; [done|]. intros Hp. rewrite length_app, length_fmap, length_seq. lia.
Qed.

Lemma fill_rows_cell syms rows cols idx r c :
  r < rows → c < cols →
  cell (fill_rows syms rows cols idx) r c = face_down (syms !!! (idx + r * cols + c)).
Proof.
  revert idx r. induction rows as [|rows IH]; intros idx r Hr Hc; [lia|].
  simpl. rewrite fill_row_spec. destruct r as [|r].
  - unfold cell. simpl.
    rewrite (list_lookup_total_fmap (λ i, face_down (syms !!! i)))
      by (rewrite length_seq; lia).
    rewrite lookup_total_seq_lt by done. f_equal. f_equal. lia.
  - change (cell (?row :: ?rest) (S r) c) with (cell rest r c).
    rewrite IH by lia. f_equal. f_equal. lia.
Qed.

Section InitMore.

Variables BOARD_ROWS BOARD_COLS : nat.
Variable rng : Type.
Variable rand : rng → Z * rng.

Local Abbreviation init_board := (init_board BOARD_ROWS BOARD_COLS rng rand).
Local Abbreviation shuffled := (shuffled BOARD_ROWS BOARD_COLS rng rand).

(** X14. [init_board] lays the shuffled symbols out row by row: cell
    [(r, c)] of the board it returns holds the symbol at index
    [r * BOARD_COLS + c] of the shuffled array, face down and unmatched. *)
Theorem init_board_places_row_major g b g' r c :
  init_board g = InitOk b g' → r < BOARD_ROWS → c < BOARD_COLS →
  cell b r c = mkCard (shuffled g !!! (r * BOARD_COLS + c)) false false.
Proof.
  intros Hinit Hr Hc. apply init_board_InitOk in Hinit as [_ ->].
  by rewrite fill_rows_cell.
Qed.

End InitMore.

(** The scripted source hands out its numbers in order. *)
Lemma scripted_shuffle_rest i (l : list ascii) (g : list Z) :
  (shuffle_loop (list Z) scripted_rand i l g).2 = drop i g.
Proof.
  revert l g. induction i as [|i IH]; intros l g; [done|].
  simpl. destruct g as [|x g]; simpl; rewrite IH; [by rewrite drop_nil|done].
Qed.

Lemma shuffle_loop_reaches i (l t : list ascii) :
  i < length l → length t = length l →
  drop (S i) t = drop (S i) l → take (S i) t ≡ₚ take (S i) l →
  ∃ g, (shuffle_loop (list Z) scripted_rand i l g).1 = t
       ∧ length g = i ∧ Forall (λ x, (0 ≤ x ≤ Z.of_nat i)%Z) g.
Proof.
  revert l. induction i as [|i IH]; intros l Hi Hlen Hdrop Htake.
  - exists []. split; [|by split]. simpl.
    destruct l as [|y l]; [simpl in Hi; lia|].
    destruct t as [|x t]; [done|]. simpl in *.
    apply Permutation_length_1 in Htake. rewrite !drop_0 in Hdrop. by subst.
  - assert (is_Some (t !! S i)) as [x Hx] by (apply lookup_lt_is_Some; lia).
    assert (x ∈ take (S (S i)) l) as Hin.
    { rewrite <-Htake. apply elem_of_take. exists (S i). split; [done|lia]. }
    apply elem_of_take in Hin as (j & Hj & Hji).
    set (l' := swap l (S i) j).
    assert (j < length l) as Hjl by (by eapply lookup_lt_Some).
    destruct (swap_lookup l (S i) j Hi Hjl) as (Hl'i & _ & _).
    assert (l' !! S i = Some x) as Hx'.
    { rewrite list_lookup_lookup_total_lt by (unfold l'; rewrite length_swap; lia).
      f_equal. fold l' in Hl'i. rewrite Hl'i. by apply list_lookup_total_correct. }
    assert (drop (S (S i)) l' = drop (S (S i)) l) as Hdrop'.
    { unfold l', swap. by rewrite !drop_insert_lt by lia. }
    assert (take (S (S i)) l' ≡ₚ take (S (S i)) l) as Htake'.
    { apply (Permutation_app_inv_r (drop (S (S i)) l)).
      rewrite <-Hdrop' at 1. rewrite !take_drop.
      unfold l'. by apply swap_Permutation. }
    destruct (IH l') as (g & Hg & Hglen & Hgall).
    + unfold l'. rewrite length_swap. lia.
    + unfold l'. by rewrite length_swap.
    + rewrite (drop_S t x (S i) Hx), (drop_S l' x (S i) Hx'). f_equal.
      by rewrite Hdrop'.
    + apply (Permutation_app_inv_r [x]).
      rewrite <-(take_S_r t (S i) x Hx), <-(take_S_r l' (S i) x Hx').
      by rewrite Htake'.
    + exists (Z.of_nat j :: g). split_and!.
      * simpl shuffle_loop. simpl scripted_rand. cbv beta iota zeta.
        rewrite Z.rem_small by lia. rewrite Nat2Z.id. exact Hg.
      * simpl. by rewrite Hglen.
      * constructor; [lia|]. eapply Forall_impl; [exact Hgall|]. simpl. lia.
Qed.

(** X15. The shuffle can produce every arrangement: for each permutation of
    the sequence there is a run of [rand()], of [N - 1] values each below
    [N], for which [shuffle_symbols] turns the sequence into that
    permutation. *)
Theorem shuffle_reaches_every_arrangement (l t : list ascii) :
  t ≡ₚ l →
  ∃ g, (shuffle_symbols (list Z) scripted_rand l (length l) g).1 = t
       ∧ length g = length l - 1
       ∧ Forall (λ x, (0 ≤ x < Z.of_nat (length l))%Z) g.
Proof.
  intros Hperm. unfold shuffle_symbols.
  destruct l as [|y l].
  - apply Permutation_nil_r in Hperm as ->. by exists [].
  - pose proof (Permutation_length Hperm) as Hlen.
    destruct (shuffle_loop_reaches (length (y :: l) - 1) (y :: l) t)
      as (g & Hg & Hglen & Hgall).
    + simpl. lia.
    + done.
    + rewrite !drop_ge; [done|simpl; lia|simpl in *; lia].
    + rewrite !take_ge; [done|simpl; lia|simpl in *; lia].
    + exists g. split_and!; try done.
      eapply Forall_impl; [exact Hgall|]. simpl. lia.
Qed.

(** X16. [shuffle_symbols] calls [rand()] once per swap and never
    otherwise: of the numbers the random source holds ready it takes the
    first [count - 1] and leaves the others, none when [count] is 0 or 1. *)
Theorem shuffle_draws_one_number_per_swap (l : list ascii) count (g : list Z) :
  (shuffle_symbols (list Z) scripted_rand l count g).2 = drop (count - 1) g
  ∧ (count ≤ 1 → shuffle_symbols (list Z) scripted_rand l count g = (l, g)).
Proof.
  split; [apply scripted_shuffle_rest|].
  intros Hcount. unfold shuffle_symbols.
  by replace (count - 1) with 0 by lia.
Qed.

(** * What the player sees and types *)

(** X17. [display_board] gives away no symbol of a card that is neither
    matched nor revealed: two boards with the same flags that agree on the
    symbols of their shown cards are displayed in the same way, whatever
    lies face down. *)
Theorem display_board_hides_face_down_symbols (b b' : Board) :
  Forall2 (Forall2 same_face) b b' → display_board b = display_board b'.
Proof.
  unfold display_board. induction 1 as [|row row' b b' Hrow _ IH]; [done|].
  simpl. f_equal; [|exact IH].
  induction Hrow as [|k k' row row' (Hrev & Hm & Hsym) _ IHrow]; [done|].
  simpl. f_equal; [|exact IHrow].
  rewrite <-Hm, <-Hrev. destruct (matched k || revealed k); [by apply Hsym|done].
Qed.

(** X18. [clear_input_buffer] discards the rest of the current line: it
    reads up to and including the first newline and leaves what follows;
    when no newline comes before the end of the input it reads everything. *)
Theorem clear_input_buffer_skips_line (line rest : list ascii) :
  NEWLINE ∉ line →
  clear_input_buffer (line ++ NEWLINE :: rest) = rest
  ∧ clear_input_buffer line = [].
Proof.
  intros Hline. induction line as [|ch line IH].
  - split; [|done]. change (clear_input_buffer ([] ++ NEWLINE :: rest))
      with (if decide (NEWLINE = NEWLINE) then rest
            else clear_input_buffer rest).
    by rewrite decide_True.
  - apply not_elem_of_cons in Hline as [Hch Hline].
    change (clear_input_buffer ((ch :: line) ++ NEWLINE :: rest))
      with (if decide (ch = NEWLINE) then line ++ NEWLINE :: rest
            else clear_input_buffer (line ++ NEWLINE :: rest)).
    change (clear_input_buffer (ch :: line))
      with (if decide (ch = NEWLINE) then line else clear_input_buffer line).
    rewrite !decide_False by done. by apply IH.
Qed.

(** X19. The pause after a mismatch takes more than one Enter: it discards
    a whole line and then one further character, so that the first
    character typed after the acknowledging line is lost to the next
    pick. *)
Theorem pause_eats_line_and_one_character (line : list ascii) ch rest :
  NEWLINE ∉ line →
  pause (line ++ NEWLINE :: ch :: rest) = rest
  ∧ pause (line ++ [NEWLINE]) = [].
Proof.
  intros Hline. unfold pause.
  by rewrite !(proj1 (clear_input_buffer_skips_line line _ Hline)).
Qed.

(** * Every game can be finished *)

Lemma sum_list_with_pos {A} (w : A → nat) (l : list A) :
  0 < sum_list_with w l → ∃ i x, l !! i = Some x ∧ 0 < w x.
Proof.
  induction l as [|y l IH]; simpl; [lia|]. intros Hpos.
  destruct (decide (0 < w y)) as [Hy|Hy].
  - by exists 0, y.
  - destruct IH as (i & x & Hi & Hx); [lia|]. by exists (S i), x.
Qed.

Lemma count_cards_split a m (b : Board) :
  count_cards (λ k, a k && m k) b + count_cards (λ k, a k && negb (m k)) b
  = count_cards a b.
Proof.
  unfold count_cards. induction b as [|row b IH]; [done|]. simpl.
  assert (sum_list_with (λ k : Card, if a k && m k then 1 else 0) row
          + sum_list_with (λ k : Card, if a k && negb (m k) then 1 else 0) row
          = sum_list_with (λ k : Card, if a k then 1 else 0) row) as Hrow.
  { clear IH. induction row as [|k row IHrow]; [done|]. simpl.
    destruct (a k), (m k); simpl; lia. }
  lia.
Qed.

Section Finish.

Variables BOARD_ROWS BOARD_COLS : nat.
Variable rng : Type.
Variable srand : Z → rng.
Variable rand : rng → Z * rng.
Variable clk : clock.

Local Abbreviation reachable :=
  (reachable BOARD_ROWS BOARD_COLS rng srand rand clk).
Local Abbreviation pick_card := (pick_card BOARD_ROWS BOARD_COLS).
Local Abbreviation total_pairs := (total_pairs BOARD_ROWS BOARD_COLS).
Local Abbreviation loop_head := (loop_head BOARD_ROWS BOARD_COLS clk).
Local Abbreviation compare_cards := (compare_cards BOARD_ROWS BOARD_COLS clk).
Local Abbreviation acknowledge := (acknowledge BOARD_ROWS BOARD_COLS clk).
Local Abbreviation step := (step BOARD_ROWS BOARD_COLS clk).
Local Abbreviation run := (run BOARD_ROWS BOARD_COLS clk).
Local Abbreviation game_inv := (game_inv BOARD_ROWS BOARD_COLS).
Local Abbreviation phase_inv := (phase_inv BOARD_ROWS BOARD_COLS).
Local Abbreviation in_range := (in_range BOARD_ROWS BOARD_COLS).
Local Abbreviation shaped := (shaped BOARD_ROWS BOARD_COLS).

(** A positive count has a card to show for it. *)
Lemma count_cards_pos p (b : Board) :
  shaped b → 0 < count_cards p b →
  ∃ r c, in_range r c ∧ p (cell b r c) = true.
Proof.
  intros [Hlen Hrows] Hpos. unfold count_cards in Hpos.
  apply sum_list_with_pos in Hpos as (r & row & Hrow & Hpos).
  apply sum_list_with_pos in Hpos as (c & k & Hk & Hpos).
  exists r, c. split; [split|].
  - apply lookup_lt_Some in Hrow. lia.
  - apply lookup_lt_Some in Hk.
    by rewrite (Forall_lookup_1 _ _ _ _ Hrows Hrow) in Hk.
  - unfold cell. rewrite (list_lookup_total_correct _ _ _ Hrow).
    rewrite (list_lookup_total_correct _ _ _ Hk). destruct (p k); [done|lia].
Qed.

(** The C library promises [0 <= rand() <= RAND_MAX]. *)
Hypothesis rand_nonneg : ∀ g, (0 ≤ (rand g).1)%Z.

(** While pairs are missing, two different face-down cards with the same
    symbol lie on the board. *)
Lemma pair_to_find g :
  reachable g → pc g = AwaitingFirstPick →
  ∃ r1 c1 r2 c2,
    in_range r1 c1 ∧ in_range r2 c2 ∧ (r1, c1) ≠ (r2, c2)
    ∧ symbol (cell (board g) r1 c1) = symbol (cell (board g) r2 c2)
    ∧ matched (cell (board g) r1 c1) = false
    ∧ revealed (cell (board g) r1 c1) = false
    ∧ matched (cell (board g) r2 c2) = false
    ∧ revealed (cell (board g) r2 c2) = false.
Proof.
  intros Hg Hpc.
  pose proof (reachable_inv _ _ _ _ _ _ _ Hg) as [Hb _ Hpf Hph].
  unfold phase_inv in Hph. rewrite Hpc in Hph. destruct Hph as [Hnone Hlt].
  pose proof (reachable_tally _ _ _ _ _ _ g Hg) as [Htally _].
  pose proof (reachable_even _ _ _ _ _ _ g Hg) as Heven.
  pose proof (total_pairs_even BOARD_ROWS BOARD_COLS Heven) as Htotal.
  assert (∀ r c, in_range r c → matched (cell (board g) r c) = false →
                 revealed (cell (board g) r c) = false) as Hdown.
  { intros r c Hin Hm.
    pose proof (no_open_cell _ _ _ _ _ Hb Hin Hnone) as Hopen.
    unfold is_open in Hopen. rewrite Hm, andb_true_r in Hopen. done. }
  (* a card that is not matched *)
  pose proof (count_cards_split (λ _, true) matched (board g)) as Hsplit.
  cbv beta in Hsplit.
  assert (count_cards (λ _, true) (board g) = BOARD_ROWS * BOARD_COLS) as Hall.
  { rewrite <-(length_cards BOARD_ROWS BOARD_COLS (board g) Hb).
    unfold count_cards, cards. clear.
    assert (∀ row : list Card,
              sum_list_with (λ _ : Card, 1) row = length row) as Hrow.
    { induction row as [|k row IH]; [done|]. simpl. by rewrite IH. }
    induction (board g) as [|row b IH]; [done|]. simpl.
    by rewrite length_app, IH, Hrow. }
  destruct (count_cards_pos (λ k, true && negb (matched k)) (board g) Hb)
    as (r1 & c1 & Hin1 & Hm1).
  { change (count_cards (λ k, true && matched k) (board g))
      with (count_cards matched (board g)) in Hsplit. lia. }
  apply negb_true_iff in Hm1.
  (* its symbol lies on two cards, none of them matched *)
  set (s := symbol (cell (board g) r1 c1)).
  assert (unmatched_with s (cell (board g) r1 c1) = true) as Hun1.
  { unfold unmatched_with, has_symbol. rewrite Hm1.
    by rewrite bool_decide_eq_true_2. }
  destruct Hin1 as [Hr1 Hc1].
  pose proof (count_cards_cell BOARD_ROWS BOARD_COLS (unmatched_with s)
                (board g) r1 c1 Hb Hr1 Hc1 Hun1) as Hone.
  pose proof (count_cards_split (has_symbol s) matched (board g)) as Hsplit_s.
  cbv beta in Hsplit_s.
  change (count_cards (λ k, has_symbol s k && matched k) (board g))
    with (count_cards (matched_with s) (board g)) in Hsplit_s.
  change (count_cards (λ k, has_symbol s k && negb (matched k)) (board g))
    with (count_cards (unmatched_with s) (board g)) in Hsplit_s.
  pose proof (reachable_paired _ _ _ _ _ _ rand_nonneg g Hg s) as [_ Hpaired].
  pose proof (reachable_occurrences _ _ _ _ _ _ rand_nonneg g s Hg) as Hocc.
  rewrite occurrences_count_cards in Hocc.
  assert (count_cards (unmatched_with s) (board g) = 2) as Htwo by lia.
  (* the other one *)
  pose proof (count_cards_update BOARD_ROWS BOARD_COLS (unmatched_with s)
                (board g) r1 c1 (set_matched true) Hb Hr1 Hc1) as Hupd.
  rewrite Hun1 in Hupd.
  assert (unmatched_with s (set_matched true (cell (board g) r1 c1)) = false)
    as Hgone by apply andb_false_r.
  rewrite Hgone in Hupd.
  destruct (count_cards_pos (unmatched_with s)
              (update (board g) r1 c1 (set_matched true))
              (shaped_update _ _ _ _ _ _ Hb))
    as (r2 & c2 & Hin2 & Hun2); [lia|].
  rewrite (cell_update BOARD_ROWS BOARD_COLS) in Hun2 by done.
  case_decide as Hsame; [congruence|].
  apply andb_true_iff in Hun2 as [Hs2 Hm2]. apply negb_true_iff in Hm2.
  apply bool_decide_eq_true in Hs2.
  exists r1, c1, r2, c2. split_and!; try done.
  - intros [= -> ->]. by apply Hsame.
  - apply Hdown; [by split|done].
  - by apply Hdown.
Qed.

(** Picking such a pair finds it. *)
Lemma find_one_pair g :
  reachable g → pc g = AwaitingFirstPick → (moves g < INT_MAX)%Z →
  ∃ s1 s2,
    let g' := step (step g (Pick s1)) (Pick s2) in
    pairs_found g' = (pairs_found g + 1)%Z ∧ moves g' = (moves g + 1)%Z
    ∧ (pc g' = AwaitingFirstPick ∨ pc g' = Won).
Proof.
  intros Hg Hpc Hmoves.
  destruct (pair_to_find g Hg Hpc)
    as (r1 & c1 & r2 & c2 & Hin1 & Hin2 & Hne & Hsym & Hm1 & Hrev1 & Hm2 & Hrev2).
  pose proof (reachable_inv _ _ _ _ _ _ _ Hg) as [Hb _ _ _].
  exists (typed r1 c1), (typed r2 c2). intros g'.
  pose proof (pick_card_pickable _ _ _ _ _ Hin1 Hm1 Hrev1) as Hpick1.
  pose proof (first_pick_accepted _ _ clk _ _ _ _ _ Hpc Hpick1) as Hg1.
  set (g1 := step g (Pick (typed r1 c1))) in *.
  assert (reachable g1) as Hg1r by by constructor.
  pose proof (reachable_inv _ _ _ _ _ _ _ Hg1r) as Hinv1.
  assert (pc g1 = AwaitingSecondPick r1 c1) as Hpc1 by by rewrite Hg1.
  assert (board g1 = update (board g) r1 c1 (set_revealed true)) as Hb1
    by by rewrite Hg1.
  assert (moves g1 = moves g) as Hmv1 by by rewrite Hg1.
  assert (pairs_found g1 = pairs_found g) as Hpf1 by by rewrite Hg1.
  destruct Hin1 as [Hr1 Hc1].
  assert (cell (board g1) r2 c2 = cell (board g) r2 c2) as Hcell2
    by (rewrite Hb1; by apply (cell_update_ne BOARD_ROWS BOARD_COLS)).
  assert (pick_card (board g1) (typed r2 c2) = (Some (r2, c2), [MsgPrompt]))
    as Hpick2 by (apply pick_card_pickable; by rewrite ?Hcell2).
  assert (g' = compare_cards (incr_moves (second_revealed g1 r2 c2)) r1 c1 r2 c2)
    as Hg'.
  { unfold g', step at 1. rewrite Hpc1.
    rewrite (second_pick_valid BOARD_ROWS BOARD_COLS clk g1 r1 c1 _ r2 c2 _
               Hinv1 Hpc1 Hpick2).
    by destruct (Z.ltb_spec (moves g1) INT_MAX); [|lia]. }
  rewrite compare_cards_equal in Hg'.
  - clearbody g'. subst g'.
    rewrite loop_head_pairs_found, loop_head_moves, loop_head_pc. simpl.
    rewrite Hmv1, Hpf1. split_and!; try done. case_match; auto.
  - change (board (incr_moves ?h)) with (board h).
    destruct Hinv1 as [Hb1s _ _ _].
    rewrite !(second_revealed_symbol BOARD_ROWS BOARD_COLS) by done.
    rewrite Hcell2, Hb1, (cell_update_eq BOARD_ROWS BOARD_COLS) by done.
    done.
Qed.

Lemma finish_from_first_pick n g :
  reachable g → pc g = AwaitingFirstPick ∨ pc g = Won →
  (total_pairs - pairs_found g)%Z = Z.of_nat n →
  (moves g + Z.of_nat n ≤ INT_MAX)%Z →
  ∃ inputs, pc (run g inputs) = Won
            ∧ moves (run g inputs) = (moves g + Z.of_nat n)%Z
            ∧ length inputs = 2 * n.
Proof.
  revert g. induction n as [|n IH]; intros g Hg Hpc Hleft Hmoves.
  - exists []. simpl. split_and!; [|lia|done].
    destruct Hpc as [Hpc|Hpc]; [|done].
    pose proof (reachable_inv _ _ _ _ _ _ _ Hg) as [_ _ _ Hph].
    unfold phase_inv in Hph. rewrite Hpc in Hph. lia.
  - destruct Hpc as [Hpc|Hpc].
    + destruct (find_one_pair g Hg Hpc) as (s1 & s2 & Hpf & Hmv & Hpc');
        [lia|].
      set (g' := step (step g (Pick s1)) (Pick s2)) in *.
      destruct (IH g') as (inputs & Hwon & Hmoves' & Hlen).
      * unfold g'. by apply reachable_step, reachable_step.
      * done.
      * lia.
      * lia.
      * exists (Pick s1 :: Pick s2 :: inputs). simpl. fold g'.
        split_and!; [done|lia|lia].
    + pose proof (reachable_inv _ _ _ _ _ _ _ Hg) as [_ _ _ Hph].
      unfold phase_inv in Hph. rewrite Hpc in Hph. lia.
Qed.

(** X20. Every game can be finished: from every reachable state in which
    the program waits for input there is a sequence of inputs that leads out
    of the loop, finding each missing pair in one move (as long as the move
    counter has room for these moves). *)
Theorem every_game_can_be_won g :
  reachable g → pc g ≠ Undefined →
  (moves g + (total_pairs - pairs_found g) ≤ INT_MAX)%Z →
  ∃ inputs,
    pc (run g inputs) = Won
    ∧ moves (run g inputs) = (moves g + (total_pairs - pairs_found g))%Z.
Proof.
  intros Hg Hdef Hmoves.
  pose proof (reachable_inv _ _ _ _ _ _ _ Hg) as Hinv.
  assert (∃ i, (pc (step g i) = AwaitingFirstPick ∨ pc (step g i) = Won)
               ∧ moves (step g i) = moves g
               ∧ pairs_found (step g i) = pairs_found g) as (i & Hpc & Hmv & Hpf).
  { destruct Hinv as [_ _ _ Hph]. unfold phase_inv in Hph.
    destruct (pc g) as [|r1 c1|r1 c1 r2 c2| |] eqn:Hpcg.
    - exists Ack. unfold step. rewrite Hpcg. auto.
    - exists (Pick ScanFail). unfold step. rewrite Hpcg.
      rewrite (second_pick_rejected BOARD_ROWS BOARD_COLS clk g r1 c1 ScanFail
                 [MsgPrompt; MsgInvalidInput] eq_refl).
      rewrite loop_head_pc, loop_head_moves, loop_head_pairs_found. simpl.
      split; [case_match; auto|done].
    - exists Ack. unfold step. rewrite Hpcg. unfold acknowledge.
      rewrite loop_head_pc, loop_head_moves, loop_head_pairs_found. simpl.
      split; [case_match; auto|done].
    - exists Ack. unfold step. rewrite Hpcg. auto.
    - done. }
  assert (0 ≤ total_pairs - pairs_found g)%Z as Hleft.
  { destruct Hinv as [_ _ _ Hph]. unfold phase_inv in Hph.
    destruct (pc g); destruct_and?; lia. }
  destruct (finish_from_first_pick (Z.to_nat (total_pairs - pairs_found g))
              (step g i)) as (inputs & Hwon & Hmoves' & _).
  - by constructor.
  - done.
  - rewrite Hpf. lia.
  - rewrite Hmv. lia.
  - exists (i :: inputs). simpl. split; [done|]. rewrite Hmoves', Hmv. lia.
Qed.

End Finish.

(** * The further guarantees on the sample run *)

(** Typing [1 1] twice is answered with the already-revealed message. *)
Lemma already_revealed_means_same_card_witness :
  SampleRun.reachable (Sample.after [Pick (typed 0 0)])
  ∧ (pick_card Sample.BOARD_ROWS Sample.BOARD_COLS
               (board (Sample.after [Pick (typed 0 0)])) (typed 0 0)).2
    = [MsgPrompt; MsgAlreadyRevealed].
Proof.
  split; [apply SampleRun.reachable_after|].
  destruct (already_revealed_means_same_card Sample.BOARD_ROWS Sample.BOARD_COLS
              Z Sample.srand Sample.rand Sample.clk
              (Sample.after [Pick (typed 0 0)]) (typed 0 0)
              (SampleRun.reachable_after _)) as [_ Hsecond].
  apply (Hsecond 0 0); reflexivity.
Defined.

(** A malformed line as first pick. *)
Lemma rejected_first_pick_changes_nothing_witness :
  pc (Sample.after []) = AwaitingFirstPick
  ∧ (pick_card Sample.BOARD_ROWS Sample.BOARD_COLS (board (Sample.after []))
               ScanFail).1 = None
  ∧ board (SampleRun.step (Sample.after []) (Pick ScanFail))
    = board (Sample.after []).
Proof.
  split; [reflexivity|]. split; [reflexivity|].
  apply (rejected_first_pick_changes_nothing Sample.BOARD_ROWS Sample.BOARD_COLS
           Z Sample.srand Sample.rand Sample.clk (Sample.after []) ScanFail
           (SampleRun.reachable_after _) eq_refl eq_refl).
Defined.

(** [1 1], then coordinates outside the board. *)
Lemma abandoned_attempt_restores_board_witness :
  pick_card Sample.BOARD_ROWS Sample.BOARD_COLS (board (Sample.after []))
            (typed 0 0) = (Some (0, 0), [MsgPrompt])
  ∧ board (SampleRun.step (SampleRun.step (Sample.after []) (Pick (typed 0 0)))
                          (Pick (Scan2 9 9)))
    = board (Sample.after []).
Proof.
  split; [reflexivity|].
  apply (abandoned_attempt_restores_board Sample.BOARD_ROWS Sample.BOARD_COLS
           Z Sample.srand Sample.rand Sample.clk (Sample.after [])
           (typed 0 0) 0 0 [MsgPrompt] (Scan2 9 9)
           (SampleRun.reachable_after _) eq_refl eq_refl eq_refl).
Defined.

(** F against B, acknowledged. *)
Lemma mismatch_restores_board_witness :
  symbol (cell (board (Sample.after [])) 0 0)
  ≠ symbol (cell (board (Sample.after [])) 1 0)
  ∧ board (SampleRun.step
             (SampleRun.step
                (SampleRun.step (Sample.after []) (Pick (typed 0 0)))
                (Pick (typed 1 0)))
             Ack)
    = board (Sample.after []).
Proof.
  assert (symbol (cell (board (Sample.after [])) 0 0)
          ≠ symbol (cell (board (Sample.after [])) 1 0)) as Hsym
    by (vm_compute; discriminate).
  split; [exact Hsym|].
  apply (mismatch_restores_board Sample.BOARD_ROWS Sample.BOARD_COLS
           Z Sample.srand Sample.rand Sample.clk (Sample.after [])
           (typed 0 0) 0 0 [MsgPrompt] (typed 1 0) 1 0 [MsgPrompt]
           (SampleRun.reachable_after _) eq_refl eq_refl eq_refl Hsym eq_refl).
Defined.

(** One pair found: two matched cards. *)
Lemma matched_cards_are_twice_pairs_found_witness :
  SampleRun.reachable (Sample.after [Pick (typed 0 0); Pick (typed 0 1)])
  ∧ count_cards matched
      (board (Sample.after [Pick (typed 0 0); Pick (typed 0 1)])) = 2.
Proof.
  split; [apply SampleRun.reachable_after|].
  pose proof (matched_cards_are_twice_pairs_found Sample.BOARD_ROWS
                Sample.BOARD_COLS Z Sample.srand Sample.rand Sample.clk
                (Sample.after [Pick (typed 0 0); Pick (typed 0 1)])
                (SampleRun.reachable_after _)) as Htwice.
  change (pairs_found (Sample.after [Pick (typed 0 0); Pick (typed 0 1)]))
    with 1%Z in Htwice.
  lia.
Defined.

(** The end of the winning game. *)
Lemma won_board_is_fully_matched_witness :
  pc (Sample.after Sample.winning_inputs) = Won
  ∧ display_board (board (Sample.after Sample.winning_inputs))
    = symbols_of (board (Sample.after Sample.winning_inputs)).
Proof.
  assert (pc (Sample.after Sample.winning_inputs) = Won) as Hpc
    by (vm_compute; reflexivity).
  split; [exact Hpc|].
  apply (won_board_is_fully_matched Sample.BOARD_ROWS Sample.BOARD_COLS
           Z Sample.srand Sample.rand Sample.clk
           (Sample.after Sample.winning_inputs)
           (SampleRun.reachable_after _) Hpc).
Defined.


(** After the two F were found: both cards with F are matched, no card
    with B is. *)
Lemma matched_cards_come_in_pairs_witness :
  (∀ g, (0 ≤ (Sample.rand g).1)%Z)
  ∧ count_cards (matched_with "F")
      (board (Sample.after [Pick (typed 0 0); Pick (typed 0 1)])) = 2
  ∧ occurrences "F" (board (Sample.after [Pick (typed 0 0); Pick (typed 0 1)]))
    = 2.
Proof.
  split; [exact SampleRun.rand_nonneg|].
  destruct (matched_cards_come_in_pairs Sample.BOARD_ROWS Sample.BOARD_COLS
              Z Sample.srand Sample.rand Sample.clk SampleRun.rand_nonneg
              (Sample.after [Pick (typed 0 0); Pick (typed 0 1)]) "F"%char
              (SampleRun.reachable_after _)) as [Hnone|Hboth].
  - vm_compute in Hnone. discriminate Hnone.
  - exact Hboth.
Defined.

Lemma congratulated_iff_won_witness :
  pc (Sample.after Sample.winning_inputs) = Won
  ∧ MsgCongratulations ∈ output (Sample.after Sample.winning_inputs).
Proof.
  assert (pc (Sample.after Sample.winning_inputs) = Won) as Hpc
    by (vm_compute; reflexivity).
  split; [exact Hpc|].
  apply (congratulated_iff_won Sample.BOARD_ROWS Sample.BOARD_COLS
           Z Sample.srand Sample.rand Sample.clk
           (Sample.after Sample.winning_inputs) (SampleRun.reachable_after _)).
  exact Hpc.
Defined.

(** Eight moves in 83 seconds. *)
Lemma summary_reports_moves_and_time_witness :
  pc (Sample.after Sample.winning_inputs) = Won
  ∧ (time_start Sample.clk ≤ time_end Sample.clk)%Z
  ∧ (time_end Sample.clk - time_start Sample.clk ≤ INT_MAX)%Z
  ∧ ∃ pre m s,
      output (Sample.after Sample.winning_inputs)
      = pre ++ [MsgCongratulations;
                MsgMoves (moves (Sample.after Sample.winning_inputs));
                MsgTime m s]
      ∧ (60 * m + s = 83)%Z.
Proof.
  assert (pc (Sample.after Sample.winning_inputs) = Won) as Hpc
    by (vm_compute; reflexivity).
  assert (time_start Sample.clk ≤ time_end Sample.clk)%Z as Hclock
    by (vm_compute; discriminate).
  assert (time_end Sample.clk - time_start Sample.clk ≤ INT_MAX)%Z as Hfits
    by (vm_compute; discriminate).
  split; [exact Hpc|]. split; [exact Hclock|]. split; [exact Hfits|].
  destruct (summary_reports_moves_and_time Sample.BOARD_ROWS Sample.BOARD_COLS
              Z Sample.srand Sample.rand Sample.clk
              (Sample.after Sample.winning_inputs)
              (SampleRun.reachable_after _) Hpc Hclock Hfits)
    as (pre & m & s & Hout & _ & _ & _ & Htime).
  exists pre, m, s. split; [exact Hout|exact Htime].
Defined.

(** The first loop of [init_board]: the capital letters. *)
Lemma fill_pool_appends_range_within_array_witness :
  POOL_LIMIT < 128
  ∧ fill_pool 128 (nat_of_ascii "A") (nat_of_ascii "Z") []
    = list_ascii_of_string "ABCDEFGHIJKLMNOPQRSTUVWXYZ".
Proof.
  assert (POOL_LIMIT < 128) as Hn by (unfold POOL_LIMIT; lia).
  split; [exact Hn|].
  destruct (fill_pool_appends_range_within_array 128 (nat_of_ascii "A")
              (nat_of_ascii "Z") [] Hn) as [Hfill _].
  rewrite Hfill. reflexivity.
Defined.

(** Row 2, column 3 of the sample board holds the symbol at index 6. *)
Lemma init_board_places_row_major_witness :
  ∃ b g', init_board 4 4 Z Sample.rand (Sample.srand 1) = InitOk b g'
          ∧ cell b 1 2
            = mkCard (shuffled 4 4 Z Sample.rand (Sample.srand 1) !!! 6)
                     false false.
Proof.
  destruct (init_board 4 4 Z Sample.rand (Sample.srand 1)) as [b g'|e] eqn:Hinit.
  - exists b, g'. split; [reflexivity|].
    apply (init_board_places_row_major 4 4 Z Sample.rand (Sample.srand 1) b g'
             1 2 Hinit); lia.
  - vm_compute in Hinit. discriminate Hinit.
Defined.

(** Two symbols can be exchanged. *)
Lemma shuffle_reaches_every_arrangement_witness :
  list_ascii_of_string "BA" ≡ₚ list_ascii_of_string "AB"
  ∧ ∃ g, (shuffle_symbols (list Z) scripted_rand
            (list_ascii_of_string "AB") 2 g).1 = list_ascii_of_string "BA".
Proof.
  assert (list_ascii_of_string "BA" ≡ₚ list_ascii_of_string "AB") as Hperm
    by apply perm_swap.
  split; [exact Hperm|].
  destruct (shuffle_reaches_every_arrangement _ _ Hperm) as (g & Hg & _).
  exists g. exact Hg.
Defined.

(** A face-down A and a face-down Z look the same. *)
Lemma display_board_hides_face_down_symbols_witness :
  Forall2 (Forall2 same_face)
    [[mkCard "A" false false; mkCard "B" true false]]
    [[mkCard "Z" false false; mkCard "B" true false]]
  ∧ display_board [[mkCard "A" false false; mkCard "B" true false]]
    = display_board [[mkCard "Z" false false; mkCard "B" true false]].
Proof.
  assert (Forall2 (Forall2 same_face)
            [[mkCard "A" false false; mkCard "B" true false]]
            [[mkCard "Z" false false; mkCard "B" true false]]) as Hsame.
  { repeat constructor; simpl; intros; (discriminate || reflexivity). }
  split; [exact Hsame|].
  apply (display_board_hides_face_down_symbols _ _ Hsame).
Defined.

(** What was typed after the two numbers is dropped with the line. *)
Lemma clear_input_buffer_skips_line_witness :
  (NEWLINE ∉ list_ascii_of_string " x")
  ∧ clear_input_buffer (list_ascii_of_string " x" ++ NEWLINE
                        :: list_ascii_of_string "3 4")
    = list_ascii_of_string "3 4".
Proof.
  assert (NEWLINE ∉ list_ascii_of_string " x") as Hline by not_in_list.
  split; [exact Hline|].
  apply (clear_input_buffer_skips_line _ _ Hline).
Defined.

(** Enter, then [1 2]: the pause takes the [1]. *)
Lemma pause_eats_line_and_one_character_witness :
  (NEWLINE ∉ ([] : list ascii))
  ∧ pause ([] ++ NEWLINE :: "1"%char :: list_ascii_of_string " 2")
    = list_ascii_of_string " 2".
Proof.
  assert (NEWLINE ∉ ([] : list ascii)) as Hline by not_in_list.
  split; [exact Hline|].
  apply (pause_eats_line_and_one_character _ _ _ Hline).
Defined.

(** In the middle of an attempt of the sample game. *)
Lemma every_game_can_be_won_witness :
  pc (Sample.after [Pick (typed 0 0)]) ≠ Undefined
  ∧ ∃ inputs,
      pc (SampleRun.run (Sample.after [Pick (typed 0 0)]) inputs) = Won.
Proof.
  assert (pc (Sample.after [Pick (typed 0 0)]) ≠ Undefined) as Hdef
    by (vm_compute; discriminate).
  split; [exact Hdef|].
  destruct (every_game_can_be_won Sample.BOARD_ROWS Sample.BOARD_COLS
              Z Sample.srand Sample.rand Sample.clk SampleRun.rand_nonneg
              (Sample.after [Pick (typed 0 0)])
              (SampleRun.reachable_after _) Hdef)
    as (inputs & Hwon & _).
  - vm_compute. discriminate.
  - exists inputs. exact Hwon.
Defined.

(** * What a run never undoes *)

Lemma display_board_hidden rows cols (b : Board) :
  shaped rows cols b → all_cards hidden b →
  display_board b = replicate rows (replicate cols "*"%char).
Proof.
  intros [Hlen Hrows] Hall. subst rows. unfold display_board.
  induction Hall as [|row b Hrow _ IH]; [done|].
  apply Forall_cons in Hrows as [Hcols Hrows].
  simpl. f_equal; [|by apply IH]. subst cols. clear -Hrow.
  induction Hrow as [|k row [Hrev Hm] _ IHrow]; [done|].
  simpl. by rewrite Hm, Hrev, IHrow.
Qed.

Section RunFacts.

Variables BOARD_ROWS BOARD_COLS : nat.
Variable rng : Type.
Variable srand : Z → rng.
Variable rand : rng → Z * rng.
Variable clk : clock.

Local Abbreviation main_start :=
  (main_start BOARD_ROWS BOARD_COLS rng srand rand clk).
Local Abbreviation reachable :=
  (reachable BOARD_ROWS BOARD_COLS rng srand rand clk).
Local Abbreviation total_pairs := (total_pairs BOARD_ROWS BOARD_COLS).
Local Abbreviation loop_head := (loop_head BOARD_ROWS BOARD_COLS clk).
Local Abbreviation compare_cards := (compare_cards BOARD_ROWS BOARD_COLS clk).
Local Abbreviation acknowledge := (acknowledge BOARD_ROWS BOARD_COLS clk).
Local Abbreviation step := (step BOARD_ROWS BOARD_COLS clk).
Local Abbreviation run := (run BOARD_ROWS BOARD_COLS clk).
Local Abbreviation game_inv := (game_inv BOARD_ROWS BOARD_COLS).
Local Abbreviation phase_inv := (phase_inv BOARD_ROWS BOARD_COLS).
Local Abbreviation in_range := (in_range BOARD_ROWS BOARD_COLS).
Local Abbreviation shaped := (shaped BOARD_ROWS BOARD_COLS).
Local Abbreviation turn := (turn BOARD_ROWS BOARD_COLS clk).

(** X21. A fresh game gives nothing away: when [main] starts a game with
    pairs to find, what it has printed before the first input is the
    welcome, the instructions with the number of pairs, a board of
    [BOARD_ROWS] rows of [BOARD_COLS] stars, and the request for the first
    card. *)
Theorem fresh_game_shows_only_stars g :
  main_start = inr g → (0 < total_pairs)%Z →
  output g = [MsgWelcome; MsgInstructions total_pairs;
              MsgBoard (replicate BOARD_ROWS (replicate BOARD_COLS "*"%char));
              MsgPickFirst].
Proof.
  intros (_ & _ & ->)%main_start_inr Hpairs.
  rewrite loop_head_continue by done. simpl.
  by rewrite (display_board_hidden BOARD_ROWS BOARD_COLS)
    by (apply fill_rows_shaped || apply fill_rows_hidden).
Qed.

(** The cards the loop works on lie inside the board. *)
Lemma phase_in_range g :
  game_inv g →
  match pc g with
  | AwaitingSecondPick r1 c1 => in_range r1 c1
  | AwaitingAck r1 c1 r2 c2 => in_range r1 c1 ∧ in_range r2 c2
  | _ => True
  end.
Proof.
  intros [_ _ _ Hph]. unfold phase_inv in Hph.
  destruct (pc g); destruct_and?; done.
Qed.

Lemma turn_keeps_matched g g' r c :
  game_inv g → turn g g' → r < BOARD_ROWS → c < BOARD_COLS →
  matched (cell (board g) r c) = true → matched (cell (board g') r c) = true.
Proof.
  intros Hinv Hturn Hr Hc Hm. pose proof (phase_in_range g Hinv) as Hin.
  destruct Hinv as [Hb _ _ _].
  destruct Hturn as [|msgs Hpc _|r1 c1 Hpc [Hr1 Hc1] _ _|r1 c1 msgs Hpc _
                     |r1 c1 r2 c2 Hpc [Hr2 Hc2] _ _ _ _
                     |r1 c1 r2 c2 Hpc [Hr2 Hc2]|r1 c1 r2 c2 Hpc];
    rewrite ?Hpc in Hin; unfold compare_cards, acknowledge;
    try case_decide; rewrite ?loop_head_board; simpl; try done;
    destruct_and?;
    repeat match goal with H : in_range _ _ |- _ => destruct H end;
    rewrite !(cell_update BOARD_ROWS BOARD_COLS)
      by (by repeat apply shaped_update);
    repeat case_decide; destruct_and?; simplify_eq; simpl; done.
Qed.


(** X22. A found pair stays found: a card that is matched in a reachable
    state is matched in every state that any further input leads to. *)
Theorem matched_cards_stay_matched g inputs r c :
  reachable g → r < BOARD_ROWS → c < BOARD_COLS →
  matched (cell (board g) r c) = true →
  matched (cell (board (run g inputs)) r c) = true.
Proof.
  intros Hg Hr Hc. revert g Hg.
  induction inputs as [|i inputs IH]; intros g Hg Hm; [done|].
  simpl. apply IH; [by constructor|].
  pose proof (reachable_inv _ _ _ _ _ _ _ Hg) as Hinv.
  by apply (turn_keeps_matched g _ r c Hinv (step_turn _ _ clk g i Hinv)).
Qed.


End RunFacts.

(** The sample game starts with sixteen stars. *)
Lemma fresh_game_shows_only_stars_witness :
  main_start Sample.BOARD_ROWS Sample.BOARD_COLS Z Sample.srand Sample.rand
             Sample.clk = inr Sample.start_game
  ∧ (0 < total_pairs Sample.BOARD_ROWS Sample.BOARD_COLS)%Z
  ∧ MsgBoard (replicate 4 (replicate 4 "*"%char)) ∈ output Sample.start_game.
Proof.
  assert (0 < total_pairs Sample.BOARD_ROWS Sample.BOARD_COLS)%Z as Hpairs
    by reflexivity.
  split; [reflexivity|]. split; [exact Hpairs|].
  rewrite (fresh_game_shows_only_stars Sample.BOARD_ROWS Sample.BOARD_COLS
             Z Sample.srand Sample.rand Sample.clk Sample.start_game
             eq_refl Hpairs).
  apply list_elem_of_further, list_elem_of_further, list_elem_of_here.
Defined.

(** The two F stay matched to the end of the winning game. *)
Lemma matched_cards_stay_matched_witness :
  matched (cell (board (Sample.after [Pick (typed 0 0); Pick (typed 0 1)])) 0 0)
  = true
  ∧ matched
      (cell (board (SampleRun.run
                      (Sample.after [Pick (typed 0 0); Pick (typed 0 1)])
                      (drop 2 Sample.winning_inputs))) 0 0) = true.
Proof.
  split; [reflexivity|].
  apply (matched_cards_stay_matched Sample.BOARD_ROWS Sample.BOARD_COLS
           Z Sample.srand Sample.rand Sample.clk
           (Sample.after [Pick (typed 0 0); Pick (typed 0 1)])
           (drop 2 Sample.winning_inputs) 0 0 (SampleRun.reachable_after _)).
  - unfold Sample.BOARD_ROWS. lia.
  - unfold Sample.BOARD_COLS. lia.
  - reflexivity.
Defined.

